(** * hsbench: statistics ledgers, interval barrier and phase wrapper

    A shallow embedding of the statistics engine of [hsbench.go]
    (IntervalStats, ThreadStats, Stats), of the loops of the object workers
    (runUpload, runDownload, runDelete) and of the phase wrapper
    (runWrapper), followed by the properties the specification states about
    them.

    Conventions of the embedding.
    - Go's [int] and [int64] are [Z]; the additions and subtractions the
      source performs on them are followed by [wrap64], the conversions to
      [int32] by [wrap32].
    - A slice is a [list]; an index expression [s[i]] is [index s i], which
      is [Panic] outside [0, len s); [append] panics where the slice would
      outgrow an [int].
    - [float64] is the type [float64] below: exact rationals extended with
      the IEEE special values.  The rounding of the 53-bit significand is
      not modelled and the sign of zero is dropped; division by zero and
      the special values follow IEEE 754, as Go's float division does.  The
      percentile index, the one integer a float decides, is compared with
      its binary64 computation in [pctIndex_binary64].
    - [time.Now()] is an input: a call that reads the clock takes the list
      of the readings it is going to see.  A loop that asks for more
      readings than the list holds is [Starved]: it is still running.
    - The outcome of a request to the object store is an input too.
    - [sync.Map] of [*int32] counters is a [gmap Z Z]; an atomic operation
      is a single step, and the steps of the workers interleave.
    - The workers of the four bucket modes are not embedded; a phase of
      theirs is a parameter of [runWrapper]. *)

From Stdlib Require Import ZArith QArith Qround Lia Ascii.
From Stdlib Require Import Floats.PrimFloat Floats.SpecFloat Floats.FloatOps Uint63.
From stdpp Require Import gmap list strings sorting pretty.

Local Open Scope Z_scope.

(** ** Machine integers *)

Definition wrap64 (z : Z) : Z := (z + 2 ^ 63) mod 2 ^ 64 - 2 ^ 63.
Definition wrap32 (z : Z) : Z := (z + 2 ^ 31) mod 2 ^ 32 - 2 ^ 31.
Definition in_int64 (z : Z) : Prop := - 2 ^ 63 <= z < 2 ^ 63.
Definition in_int32 (z : Z) : Prop := - 2 ^ 31 <= z < 2 ^ 31.

(** ** Outcomes of a call *)

Inductive result (A : Type) : Type :=
| Ok (a : A)
| Panic
| Starved.
Arguments Ok {A} a.
Arguments Panic {A}.
Arguments Starved {A}.

#[global] Instance result_bind : MBind result := fun A B f m =>
  match m with
  | Ok a => f a
  | Panic => Panic
  | Starved => Starved
  end.

(** [s[i]] on a slice: run-time panic when [i] is out of range. *)
Definition index {A : Type} (s : list A) (i : Z) : result A :=
  if (0 <=? i) && (i <? Z.of_nat (length s))
  then match s !! Z.to_nat i with Some a => Ok a | None => Panic end
  else Panic.

(** [append(s, x)]: the runtime refuses a slice longer than an [int] counts. *)
Definition append {A : Type} (s : list A) (x : A) : result (list A) :=
  if Z.of_nat (length s) + 1 <? 2 ^ 63 then Ok (s ++ [x]) else Panic.

(** ** float64 *)

Inductive float64 : Type :=
| Fin (q : Q)
| PInf
| NInf
| NaN.

Definition float64_of_int (z : Z) : float64 := Fin (inject_Z z).

Definition fdiv (a b : float64) : float64 :=
  match a, b with
  | NaN, _ | _, NaN => NaN
  | Fin x, Fin y =>
      if Qeq_bool y 0
      then (if Qeq_bool x 0 then NaN else if Qle_bool 0 x then PInf else NInf)
      else Fin (x / y)
  | Fin _, _ => Fin 0
  | PInf, Fin y => if Qle_bool 0 y then PInf else NInf
  | NInf, Fin y => if Qle_bool 0 y then NInf else PInf
  | _, _ => NaN
  end.

Definition fmul (a b : float64) : float64 :=
  match a, b with
  | NaN, _ | _, NaN => NaN
  | Fin x, Fin y => Fin (x * y)
  | Fin x, PInf | PInf, Fin x =>
      if Qeq_bool x 0 then NaN else if Qle_bool 0 x then PInf else NInf
  | Fin x, NInf | NInf, Fin x =>
      if Qeq_bool x 0 then NaN else if Qle_bool 0 x then NInf else PInf
  | PInf, PInf | NInf, NInf => PInf
  | _, _ => NInf
  end.

(** Go's [==] on float64. *)
Definition feq (a b : float64) : Prop :=
  match a, b with
  | Fin x, Fin y => Qeq x y
  | PInf, PInf | NInf, NInf => True
  | _, _ => False
  end.

(** Nearest integer, halves away from zero. *)
Definition round_half_away (x : Q) : Z :=
  if Qle_bool 0 x then Qfloor (x + (1 # 2)) else Qceiling (x - (1 # 2)).

(** [math.Round]. *)
Definition math_Round (a : float64) : float64 :=
  match a with
  | Fin x => Fin (inject_Z (round_half_away x))
  | _ => a
  end.

(** [int64(f)]: truncation toward zero; the amd64 result for a value that
    is not a number or does not fit is the smallest int64. *)
Definition int64_of_float (a : float64) : Z :=
  match a with
  | Fin x =>
      let t := if Qle_bool 0 x then Qfloor x else Qceiling x in
      if (- 2 ^ 63 <=? t) && (t <? 2 ^ 63) then t else - 2 ^ 63
  | _ => - 2 ^ 63
  end.

(** ** OutputStats *)

Record OutputStats : Type := mkOutputStats {
  Loop : Z;
  IntervalName : string;
  Seconds : float64;
  Mode : string;
  Ops : Z;
  Mbps : float64;
  Iops : float64;
  MinLat : float64;
  AvgLat : float64;
  Lat99 : float64;
  Lat95 : float64;
  Lat90 : float64;
  Lat75 : float64;
  Lat50 : float64;
  MaxLat : float64;
  Slowdowns : Z
}.

(** [OutputStats{}] *)
Definition OutputStats_zero : OutputStats :=
  mkOutputStats 0 "" (Fin 0) "" 0 (Fin 0) (Fin 0) (Fin 0) (Fin 0)
                (Fin 0) (Fin 0) (Fin 0) (Fin 0) (Fin 0) (Fin 0) 0.

(** [bytefmt.MEGABYTE] of code.cloudfoundry.org/bytefmt, the version go.mod
    pins: [BYTE = 1 << (10 * iota)], then KILOBYTE, then MEGABYTE. *)
Definition bytefmt_MEGABYTE : Z := Z.shiftl 1 20.

(** [strconv.FormatInt(i, 10)] *)
Definition FormatInt (i : Z) : string := pretty i.

(** [sort.Slice(tmpLat, func(i, j int) bool { return tmpLat[i] < tmpLat[j] })]:
    the ascending rearrangement of the slice. *)
Definition sortLat (l : list Z) : list Z := merge_sort Z.le l.

(** ** IntervalStats *)

Module IntervalStats.

Record t : Type := mk {
  loop : Z;
  name : string;
  mode : string;
  bytes : Z;
  slowdowns : Z;
  intervalNano : Z;
  latNano : list Z
}.

(** [for i := range is.latNano { totalLat += is.latNano[i] }] *)
Definition totalLat (l : list Z) : Z :=
  fold_left (fun acc x => wrap64 (acc + x)) l 0.

(** [int64(math.Round(p*float64(ops)))-1] *)
Definition pctIndex (p : Q) (ops : Z) : Z :=
  wrap64 (int64_of_float (math_Round (fmul (Fin p) (float64_of_int ops))) - 1).

(** [float64(x) / 1000000] *)
Definition millis (x : Z) : float64 := fdiv (float64_of_int x) (Fin 1000000).

(** [LatPPNano := is.latNano[...]; LatPP = float64(LatPPNano) / 1000000] *)
Definition latAt (p : Q) (l : list Z) (ops : Z) : result float64 :=
  x ← index l (pctIndex p ops); Ok (millis x).

(** The eight latency variables of [makeOutputStats]. *)
Record LatFields : Type := mkLatFields {
  minLat : float64; maxLat : float64; avgLat : float64;
  lat99 : float64; lat95 : float64; lat90 : float64;
  lat75 : float64; lat50 : float64
}.

(** The variables' initialisation and the [if ops > 0] block. *)
Definition latFields (l : list Z) : result LatFields :=
  let ops := Z.of_nat (length l) in
  if 0 <? ops then
    x0 ← index l 0;
    xn ← index l (ops - 1);
    let avg :=
      fdiv (fdiv (float64_of_int (totalLat l)) (float64_of_int ops)) (Fin 1000000) in
    l99 ← latAt 0.99 l ops;
    l95 ← latAt 0.95 l ops;
    l90 ← latAt 0.9 l ops;
    l75 ← latAt 0.75 l ops;
    l50 ← latAt 0.5 l ops;
    Ok (mkLatFields (millis x0) (millis xn) avg l99 l95 l90 l75 l50)
  else
    Ok (mkLatFields (Fin 0) (Fin 0) (Fin 0) (Fin 0) (Fin 0) (Fin 0) (Fin 0) (Fin 0)).

Definition makeOutputStats (ivs : t) : result OutputStats :=
  let ops := Z.of_nat (length (latNano ivs)) in
  lf ← latFields (latNano ivs);
  let seconds := fdiv (float64_of_int (intervalNano ivs)) (Fin 1000000000) in
  let mbps :=
    fdiv (fdiv (float64_of_int (bytes ivs)) seconds)
         (float64_of_int bytefmt_MEGABYTE) in
  let iops := fdiv (float64_of_int ops) seconds in
  Ok (mkOutputStats (loop ivs) (name ivs) seconds (mode ivs) ops mbps iops
        (minLat lf) (avgLat lf) (lat99 lf) (lat95 lf) (lat90 lf) (lat75 lf)
        (lat50 lf) (maxLat lf) (slowdowns ivs)).

End IntervalStats.

(** *** The index expression in binary64

    The percentile index is the one place where the rounding of binary64
    decides an integer.  [pctIndex64] is the same expression on machine
    floats: the literal rounded to binary64, the product rounded to
    binary64, and [math.Round] taken on the exact value of the product. *)

Definition roundSF (x : spec_float) : Z :=
  match x with
  | S754_zero _ => 0
  | S754_finite false m e =>
      if 0 <=? e then Z.pos m * 2 ^ e
      else (2 * Z.pos m + 2 ^ (- e)) / 2 ^ (1 - e)
  | S754_finite true m e =>
      if 0 <=? e then - (Z.pos m * 2 ^ e)
      else - ((2 * Z.pos m + 2 ^ (- e)) / 2 ^ (1 - e))
  | _ => - 2 ^ 63
  end.

Definition pctIndex64 (p : float) (ops : Z) : Z :=
  roundSF (Prim2SF (PrimFloat.mul p (PrimFloat.of_uint63 (Uint63.of_Z ops)))) - 1.

#[local] Set Warnings "-inexact-float".

(** The five literals of [makeOutputStats], as machine floats and as the
    fractions of the embedding. *)
Definition literals : list (float * Q) :=
  [(0.99%float, 0.99%Q); (0.95%float, 0.95%Q); (0.9%float, 0.9%Q);
   (0.75%float, 0.75%Q); (0.5%float, 0.5%Q)].

#[local] Set Warnings "+inexact-float".

(** Sample counts on which the two are compared: every count up to 1000
    and some large ones. *)
Definition sampleCounts : list Z :=
  seqZ 1 1000 ++
  [4096; 10000; 65535; 100000; 1000000; 12345678; 2 ^ 31 - 1; 2 ^ 31;
   10 ^ 10; 10 ^ 12; 50 * (2 ^ 30 + 1); 10 * (2 ^ 35 + 1)].

(** [for i := lo; i < hi; i++ { acc = body(i, acc) }] *)
Definition forRange {St : Type} (lo hi : Z) (body : Z -> St -> result St) (acc : St)
  : result St :=
  foldl (fun r i => a ← r; body i a) (Ok acc) (seqZ lo (hi - lo)).

(** ** ThreadStats: one worker's ledger *)

Module ThreadStats.

Record t : Type := mk {
  start : Z;
  curInterval : Z;
  intervals : list IntervalStats.t
}.

Definition makeThreadStats (s : Z) (loop : Z) (mode : string) (intervalNano : Z) : t :=
  mk s 0 [IntervalStats.mk loop "0" mode 0 0 intervalNano []].

(** The [for] loop of [updateIntervals]; every evaluation of its condition
    takes the next reading of the clock. *)
Fixpoint advance (clock : list Z) (ts : t) (loop : Z) (mode : string)
    (intervalNano : Z) : result t :=
  match clock with
  | [] => Starved
  | now :: clock' =>
      if wrap64 (start ts + wrap64 (intervalNano * wrap64 (curInterval ts + 1))) <? now
      then
        let cur := wrap64 (curInterval ts + 1) in
        ivs ← append (intervals ts)
                 (IntervalStats.mk loop (FormatInt cur) mode 0 0 intervalNano []);
        advance clock' (mk (start ts) cur ivs) loop mode intervalNano
      else Ok ts
  end.

Definition updateIntervals (clock : list Z) (ts : t) (loop : Z) (mode : string)
    (intervalNano : Z) : result (Z * t) :=
  if intervalNano <? 0 then Ok (curInterval ts, ts)
  else ts' ← advance clock ts loop mode intervalNano; Ok (curInterval ts', ts').

Definition finish (ts : t) : t := mk (start ts) (-1) (intervals ts).

End ThreadStats.

(** ** Stats: the ledgers of one phase and the interval barrier *)

Module Stats.

Record t : Type := mk {
  threads : Z;
  loop : Z;
  mode : string;
  startNano : Z;
  endNano : Z;
  intervalNano : Z;
  threadStats : list ThreadStats.t;
  intervalCompletions : gmap Z Z;
  completions : Z
}.

Definition set_threadStats (s : t) (l : list ThreadStats.t) : t :=
  mk (threads s) (loop s) (mode s) (startNano s) (endNano s) (intervalNano s)
     l (intervalCompletions s) (completions s).

Definition set_intervalCompletions (s : t) (m : gmap Z Z) : t :=
  mk (threads s) (loop s) (mode s) (startNano s) (endNano s) (intervalNano s)
     (threadStats s) m (completions s).

Definition set_completions (s : t) (c : Z) : t :=
  mk (threads s) (loop s) (mode s) (startNano s) (endNano s) (intervalNano s)
     (threadStats s) (intervalCompletions s) c.

Definition set_endNano (s : t) (e : Z) : t :=
  mk (threads s) (loop s) (mode s) (startNano s) e (intervalNano s)
     (threadStats s) (intervalCompletions s) (completions s).

(** [bytes], [ops] and [slowdowns] of the two aggregation functions. *)
Record Sums : Type := mkSums { sBytes : Z; sOps : Z; sSlowdowns : Z }.

(** One pass of the summing loop's body over an interval record. *)
Definition addCell (c : IntervalStats.t) (a : Sums) : Sums :=
  mkSums (wrap64 (sBytes a + IntervalStats.bytes c))
         (wrap64 (sOps a + Z.of_nat (length (IntervalStats.latNano c))))
         (wrap64 (sSlowdowns a + IntervalStats.slowdowns c)).

(** [tmpLat := make([]int64, ops)] while it is filled: the first [c] cells
    hold [filled]; [c += copy(tmpLat[c:], src)] writes as much of [src] as
    the rest of the buffer takes. *)
Definition copyInto (ops : Z) (src : list Z) (filled : list Z) : list Z :=
  filled ++ take (Z.to_nat (ops - Z.of_nat (length filled))) src.

(** The buffer once the copy loop is over: cells never written are zero. *)
Definition buffer (ops : Z) (filled : list Z) : list Z :=
  filled ++ replicate (Z.to_nat (ops - Z.of_nat (length filled))) 0.

(** [stats.threadStats[t].intervals[i]] *)
Definition cell (s : t) (th i : Z) : result IntervalStats.t :=
  ts ← index (threadStats s) th; index (ThreadStats.intervals ts) i.

(** [len(stats.threadStats[t].intervals)] *)
Definition lenIntervals (s : t) (th : Z) : result Z :=
  ts ← index (threadStats s) th; Ok (Z.of_nat (length (ThreadStats.intervals ts))).

(** The record [is] that [makeOutputStats(i)] builds once the count is
    checked. *)
Definition intervalRecord (s : t) (i : Z) : result IntervalStats.t :=
  sums ← forRange 0 (threads s)
            (fun th a => c ← cell s th i; Ok (addCell c a)) (mkSums 0 0 0);
  if sOps sums <? 0 then Panic else
  filled ← forRange 0 (threads s)
            (fun th f => c ← cell s th i;
                         Ok (copyInto (sOps sums) (IntervalStats.latNano c) f)) [];
  Ok (IntervalStats.mk (loop s) (FormatInt i) (mode s) (sBytes sums)
        (sSlowdowns sums) (intervalNano s) (sortLat (buffer (sOps sums) filled))).

Definition makeOutputStats (s : t) (i : Z) : result (OutputStats * bool) :=
  if (intervalNano s <? 0) || (i <? 0) then Ok (OutputStats_zero, false) else
  match intervalCompletions s !! i with
  | None => Ok (OutputStats_zero, false)
  | Some count =>
      if count <? wrap32 (threads s) then Ok (OutputStats_zero, false) else
      ivs ← intervalRecord s i;
      o ← IntervalStats.makeOutputStats ivs;
      Ok (o, true)
  end.

(** The record [is] that [makeTotalStats] builds once the count is checked. *)
Definition totalRecord (s : t) : result IntervalStats.t :=
  sums ← forRange 0 (threads s)
            (fun th a => n ← lenIntervals s th;
               forRange 0 n (fun i a => c ← cell s th i; Ok (addCell c a)) a)
            (mkSums 0 0 0);
  if sOps sums <? 0 then Panic else
  filled ← forRange 0 (threads s)
            (fun th f => n ← lenIntervals s th;
               forRange 0 n
                 (fun i f => c ← cell s th i;
                             Ok (copyInto (sOps sums) (IntervalStats.latNano c) f)) f)
            [];
  Ok (IntervalStats.mk (loop s) "TOTAL" (mode s) (sBytes sums)
        (sSlowdowns sums) (wrap64 (endNano s - startNano s))
        (sortLat (buffer (sOps sums) filled))).

(** [g_threads] is the global [threads] that the guard reads; the log line
    of the refusal is the third component. *)
Definition makeTotalStats (g_threads : Z) (s : t)
  : result (OutputStats * bool * list string) :=
  if completions s <? wrap32 g_threads
  then Ok (OutputStats_zero, false, ["log, completions: " +:+ pretty (completions s)])
  else
    ivs ← totalRecord s;
    o ← IntervalStats.makeOutputStats ivs;
    Ok (o, true, []).

(** One turn of the barrier loop of [updateIntervals] for interval [i]:
    [LoadOrStore], [atomic.AddInt32], and the aggregation when the count
    reaches the number of threads.  The second component is what is logged. *)
Definition vote (i : Z) (st : t * list OutputStats) : result (t * list OutputStats) :=
  let '(s, out) := st in
  let count := wrap32 (default 0 (intervalCompletions s !! i) + 1) in
  let s' := set_intervalCompletions s (<[i := count]> (intervalCompletions s)) in
  if count =? wrap32 (threads s) then
    '(o, ok) ← makeOutputStats s' i;
    Ok (s', if ok : bool then out ++ [o] else out)
  else Ok (s', out).

(** Only safe to call from the calling thread *)
Definition updateIntervals (s : t) (thread_num : Z) (clock : list Z)
  : result (Z * t * list OutputStats) :=
  ts ← index (threadStats s) thread_num;
  let curInterval := ThreadStats.curInterval ts in
  '(newInterval, ts') ←
     ThreadStats.updateIntervals clock ts (loop s) (mode s) (intervalNano s);
  let s1 := set_threadStats s (<[Z.to_nat thread_num := ts']> (threadStats s)) in
  if curInterval <? 0 then Ok (-1, s1, []) else
  '(s2, out) ← forRange curInterval newInterval vote (s1, []);
  Ok (newInterval, s2, out).

(** [now] is the reading taken as the start of the phase; [clocks] holds,
    for every thread, the readings its first [updateIntervals] sees. *)
Definition makeStats (loop : Z) (mode : string) (threads : Z) (intervalNano : Z)
    (now : Z) (clocks : list (list Z)) : result (t * list OutputStats) :=
  let s := mk threads loop mode now 0 intervalNano [] ∅ 0 in
  forRange 0 threads
    (fun i '(s, out) =>
       tss ← append (threadStats s)
                (ThreadStats.makeThreadStats now (Stats.loop s) (Stats.mode s)
                   (Stats.intervalNano s));
       '(_, s', out') ←
          updateIntervals (set_threadStats s tss) i (default [] (clocks !! Z.to_nat i));
       Ok (s', out ++ out'))
    (s, []).

Definition addOp (s : t) (thread_num : Z) (bytes : Z) (latNano : Z) : result t :=
  ts ← index (threadStats s) thread_num;
  let cur := ThreadStats.curInterval ts in
  if cur <? 0 then Ok s else
  c ← index (ThreadStats.intervals ts) cur;
  lat ← append (IntervalStats.latNano c) latNano;
  let ivs :=
    <[Z.to_nat cur :=
        IntervalStats.mk (IntervalStats.loop c) (IntervalStats.name c)
          (IntervalStats.mode c) (wrap64 (IntervalStats.bytes c + bytes))
          (IntervalStats.slowdowns c) (IntervalStats.intervalNano c) lat]>
      (ThreadStats.intervals ts) in
  Ok (set_threadStats s
        (<[Z.to_nat thread_num :=
             ThreadStats.mk (ThreadStats.start ts) cur ivs]> (threadStats s))).

Definition addSlowDown (s : t) (thread_num : Z) : result t :=
  ts ← index (threadStats s) thread_num;
  let cur := ThreadStats.curInterval ts in
  c ← index (ThreadStats.intervals ts) cur;
  let ivs :=
    <[Z.to_nat cur :=
        IntervalStats.mk (IntervalStats.loop c) (IntervalStats.name c)
          (IntervalStats.mode c) (IntervalStats.bytes c)
          (wrap64 (IntervalStats.slowdowns c + 1))
          (IntervalStats.intervalNano c) (IntervalStats.latNano c)]>
      (ThreadStats.intervals ts) in
  Ok (set_threadStats s
        (<[Z.to_nat thread_num :=
             ThreadStats.mk (ThreadStats.start ts) cur ivs]> (threadStats s))).

(** The lines of [finish] after its [updateIntervals]; [now] is the reading
    latched as the end of the phase when the last worker finishes. *)
Definition markFinished (s : t) (thread_num : Z) (now : Z) : result t :=
  ts ← index (threadStats s) thread_num;
  let s2 := set_threadStats s
              (<[Z.to_nat thread_num := ThreadStats.finish ts]> (threadStats s)) in
  let count := wrap32 (completions s2 + 1) in
  let s3 := set_completions s2 count in
  if count =? wrap32 (threads s3) then Ok (set_endNano s3 now) else Ok s3.

(** [clock] feeds [updateIntervals]. *)
Definition finish (s : t) (thread_num : Z) (clock : list Z) (now : Z)
  : result (t * list OutputStats) :=
  '(_, s1, out) ← updateIntervals s thread_num clock;
  s' ← markFinished s1 thread_num now;
  Ok (s', out).

End Stats.

(** ** The calls of the workers on the ledgers of a phase *)

Inductive call : Type :=
| UpdateIntervals (thread_num : Z) (clock : list Z)
| AddOp (thread_num : Z) (bytes : Z) (latNano : Z)
| AddSlowDown (thread_num : Z)
| Finish (thread_num : Z) (clock : list Z) (now : Z).

Definition thread_of (c : call) : Z :=
  match c with
  | UpdateIntervals t _ | AddOp t _ _ | AddSlowDown t | Finish t _ _ => t
  end.

(** A call on the ledgers [s]; [out] is what the phase has logged so far. *)
Definition perform (c : call) (st : Stats.t * list OutputStats)
  : result (Stats.t * list OutputStats) :=
  let '(s, out) := st in
  match c with
  | UpdateIntervals t clock =>
      '(_, s', o) ← Stats.updateIntervals s t clock; Ok (s', out ++ o)
  | AddOp t b l => s' ← Stats.addOp s t b l; Ok (s', out)
  | AddSlowDown t => s' ← Stats.addSlowDown s t; Ok (s', out)
  | Finish t clock now => '(s', o) ← Stats.finish s t clock now; Ok (s', out ++ o)
  end.

(** Worker [thread_num] has a ledger and has not called [finish]. *)
Definition live (s : Stats.t) (thread_num : Z) : Prop :=
  exists ts, index (Stats.threadStats s) thread_num = Ok ts /\
             0 <= ThreadStats.curInterval ts.

(** The states of a phase: [makeStats], then calls of the workers in any
    order, each worker calling nothing more once it has called [finish]
    (as runUpload, runDownload and the other worker functions do). *)
Inductive reachable : Stats.t -> list OutputStats -> Prop :=
| reach_makeStats loop mode threads intervalNano now clocks s out :
    Stats.makeStats loop mode threads intervalNano now clocks = Ok (s, out) ->
    reachable s out
| reach_call s out c s' out' :
    reachable s out ->
    live s (thread_of c) ->
    perform c (s, out) = Ok (s', out') ->
    reachable s' out'.

(** The same phase with the atomic operations as steps: a worker's
    [updateIntervals] is the advance of its own ledger followed, one at a
    time, by its increments of the counters of the intervals it has left,
    and the steps of different workers interleave in any order.  The third
    component holds, worker by worker, the number of intervals the worker
    has incremented the counter of. *)
Inductive interleaved : Stats.t -> list OutputStats -> list Z -> Prop :=
| il_makeStats loop mode threads intervalNano now clocks s out :
    Stats.makeStats loop mode threads intervalNano now clocks = Ok (s, out) ->
    interleaved s out
      (map (fun ts => Z.of_nat (length (ThreadStats.intervals ts)) - 1)
           (Stats.threadStats s))
| il_advance s out v (t : nat) ts clock new ts' :
    interleaved s out v ->
    Stats.threadStats s !! t = Some ts ->
    v !! t = Some (ThreadStats.curInterval ts) ->
    ThreadStats.updateIntervals clock ts (Stats.loop s) (Stats.mode s)
      (Stats.intervalNano s) = Ok (new, ts') ->
    interleaved (Stats.set_threadStats s (<[t := ts']> (Stats.threadStats s))) out v
| il_vote s out v (t : nat) ts j s' o :
    interleaved s out v ->
    Stats.threadStats s !! t = Some ts ->
    v !! t = Some j ->
    j < ThreadStats.curInterval ts ->
    Stats.vote j (s, []) = Ok (s', o) ->
    interleaved s' (out ++ o) (<[t := j + 1]> v)
| il_addOp s out v (t : nat) ts b l s' :
    interleaved s out v ->
    Stats.threadStats s !! t = Some ts ->
    v !! t = Some (ThreadStats.curInterval ts) ->
    Stats.addOp s (Z.of_nat t) b l = Ok s' ->
    interleaved s' out v
| il_addSlowDown s out v (t : nat) ts s' :
    interleaved s out v ->
    Stats.threadStats s !! t = Some ts ->
    v !! t = Some (ThreadStats.curInterval ts) ->
    Stats.addSlowDown s (Z.of_nat t) = Ok s' ->
    interleaved s' out v
| il_markFinished s out v (t : nat) ts now s' :
    interleaved s out v ->
    Stats.threadStats s !! t = Some ts ->
    v !! t = Some (ThreadStats.curInterval ts) ->
    Stats.markFinished s (Z.of_nat t) now = Ok s' ->
    interleaved s' out v.

(** A sequence of calls, one after the other. *)
Fixpoint runCalls (calls : list call) (st : Stats.t * list OutputStats)
  : result (Stats.t * list OutputStats) :=
  match calls with
  | [] => Ok st
  | c :: calls' => st' ← perform c st; runCalls calls' st'
  end.

Definition liveb (s : Stats.t) (thread_num : Z) : bool :=
  match index (Stats.threadStats s) thread_num with
  | Ok ts => 0 <=? ThreadStats.curInterval ts
  | _ => false
  end.

(** Every call of the sequence is made by a worker that has not finished. *)
Fixpoint followsProtocol (calls : list call) (st : Stats.t * list OutputStats) : bool :=
  match calls with
  | [] => true
  | c :: calls' =>
      liveb st.1 (thread_of c) &&
      match perform c st with
      | Ok st' => followsProtocol calls' st'
      | _ => true
      end
  end.

(** ** Global variables, worker loops and the phase wrapper *)

Module Globals.

(** The global variables that outlive a phase.  [op_counter] and
    [running_threads] are set afresh at the start of every [runWrapper] and
    are in [Shared] below. *)
Record t : Type := mk {
  duration_secs : Z;
  threads : Z;
  bucket_count : Z;
  object_count : Z;
  object_size : Z;
  object_count_flag : bool;
  endtime : Z;
  interval : float64;
  loop_objects : bool;
  buckets : list string
}.

Definition set_object_count (g : t) (n : Z) (flag : bool) : t :=
  mk (duration_secs g) (threads g) (bucket_count g) n (object_size g) flag
     (endtime g) (interval g) (loop_objects g) (buckets g).

Definition set_endtime (g : t) (e : Z) : t :=
  mk (duration_secs g) (threads g) (bucket_count g) (object_count g) (object_size g)
     (object_count_flag g) e (interval g) (loop_objects g) (buckets g).

End Globals.

(** A request sent to the object store by a worker, and whether it failed. *)
Record request : Type := mkRequest {
  rq_thread : Z;
  rq_mode : ascii;
  rq_objnum : Z;
  rq_err : bool
}.

(** What the workers of a phase share: the two atomic counters, the
    ledgers, and what has been logged and sent so far. *)
Record Shared : Type := mkShared {
  op_counter : Z;
  running_threads : Z;
  stats : Stats.t;
  logged : list OutputStats;
  requests : list request
}.

(** What one pass of a worker's loop meets: the reading of the clock at the
    test of the end time, the readings around the request, whether the
    request fails, and the readings [updateIntervals] takes. *)
Record OpEnv : Type := mkOpEnv {
  ev_now : Z;
  ev_start : Z;
  ev_err : bool;
  ev_end : Z;
  ev_clock : list Z
}.

(** The three [break]s of a worker loop. *)
Inductive exit : Type := TimeUp | CountReached | TooManyErrors.

(** [x % y] on integers: panics on a zero divisor, truncates otherwise. *)
Definition goRem (x y : Z) : result Z := if y =? 0 then Panic else Ok (Z.rem x y).

(** The end of a pass, common to the three loops: the request is on
    record, the ledgers are in [s], the error count is [errcnt]. *)
Definition endOfPass (sh : Shared) (op : Z) (s : Stats.t) (out : list OutputStats)
    (rq : request) (errcnt : Z) : Shared * Z * option exit :=
  (mkShared op (running_threads sh) s (logged sh ++ out) (requests sh ++ [rq]),
   errcnt, if 2 <? errcnt then Some TooManyErrors else None).

(** One pass of the [for] loop of [runUpload]. *)
Definition runUpload_pass (g : Globals.t) (thread_num : Z) (e : OpEnv)
    (sh : Shared) (errcnt : Z) : result (Shared * Z * option exit) :=
  if (-1 <? Globals.duration_secs g) && (Globals.endtime g <? ev_now e)
  then Ok (sh, errcnt, Some TimeUp) else
  let objnum := wrap64 (op_counter sh + 1) in
  bucket_num ← goRem objnum (Globals.bucket_count g);
  if (-1 <? Globals.object_count g) && (Globals.object_count g <=? objnum)
  then Ok (mkShared (wrap64 (objnum - 1)) (running_threads sh) (stats sh) (logged sh)
             (requests sh), errcnt, Some CountReached) else
  _ ← index (Globals.buckets g) bucket_num;
  '(_, s1, out) ← Stats.updateIntervals (stats sh) thread_num (ev_clock e);
  let rq := mkRequest thread_num "p"%char objnum (ev_err e) in
  if ev_err e then
    let errcnt := wrap64 (errcnt + 1) in
    s2 ← Stats.addSlowDown s1 thread_num;
    Ok (endOfPass sh (wrap64 (objnum - 1)) s2 out rq errcnt)
  else
    s2 ← Stats.addOp s1 thread_num (Globals.object_size g)
            (wrap64 (ev_end e - ev_start e));
    Ok (endOfPass sh objnum s2 out rq errcnt).

(** One pass of the [for] loop of [runDownload]. *)
Definition runDownload_pass (g : Globals.t) (thread_num : Z) (e : OpEnv)
    (sh : Shared) (errcnt : Z) : result (Shared * Z * option exit) :=
  if (-1 <? Globals.duration_secs g) && (Globals.endtime g <? ev_now e)
  then Ok (sh, errcnt, Some TimeUp) else
  let op := wrap64 (op_counter sh + 1) in
  objnum ← (if Globals.loop_objects g && (-1 <? Globals.duration_secs g)
            then goRem op (Globals.object_count g) else Ok op);
  if (-1 <? Globals.object_count g) && (Globals.object_count g <=? objnum)
  then Ok (mkShared (wrap64 (op - 1)) (running_threads sh) (stats sh) (logged sh)
             (requests sh), errcnt, Some CountReached) else
  bucket_num ← goRem objnum (Globals.bucket_count g);
  _ ← index (Globals.buckets g) bucket_num;
  '(_, s1, out) ← Stats.updateIntervals (stats sh) thread_num (ev_clock e);
  let rq := mkRequest thread_num "g"%char objnum (ev_err e) in
  if ev_err e then
    let errcnt := wrap64 (errcnt + 1) in
    s2 ← Stats.addSlowDown s1 thread_num;
    Ok (endOfPass sh op s2 out rq errcnt)
  else
    s2 ← Stats.addOp s1 thread_num (Globals.object_size g)
            (wrap64 (ev_end e - ev_start e));
    Ok (endOfPass sh op s2 out rq errcnt).

(** One pass of the [for] loop of [runDelete]. *)
Definition runDelete_pass (g : Globals.t) (thread_num : Z) (e : OpEnv)
    (sh : Shared) (errcnt : Z) : result (Shared * Z * option exit) :=
  if (-1 <? Globals.duration_secs g) && (Globals.endtime g <? ev_now e)
  then Ok (sh, errcnt, Some TimeUp) else
  let objnum := wrap64 (op_counter sh + 1) in
  if (-1 <? Globals.object_count g) && (Globals.object_count g <=? objnum)
  then Ok (mkShared (wrap64 (objnum - 1)) (running_threads sh) (stats sh) (logged sh)
             (requests sh), errcnt, Some CountReached) else
  bucket_num ← goRem objnum (Globals.bucket_count g);
  _ ← index (Globals.buckets g) bucket_num;
  '(_, s1, out) ← Stats.updateIntervals (stats sh) thread_num (ev_clock e);
  let rq := mkRequest thread_num "d"%char objnum (ev_err e) in
  if ev_err e then
    let errcnt := wrap64 (errcnt + 1) in
    s2 ← Stats.addSlowDown s1 thread_num;
    Ok (endOfPass sh objnum s2 out rq errcnt)
  else
    s2 ← Stats.addOp s1 thread_num (Globals.object_size g)
            (wrap64 (ev_end e - ev_start e));
    Ok (endOfPass sh objnum s2 out rq errcnt).

(** The pass of the loop that mode [r] runs, for the three object modes. *)
Definition passOf (r : ascii) :=
  if Ascii.eqb r "p"%char then runUpload_pass
  else if Ascii.eqb r "g"%char then runDownload_pass
  else runDelete_pass.

(** After the loop: [stats.finish(thread_num)] and
    [atomic.AddInt64(&running_threads, -1)]. *)
Definition workerExit (thread_num : Z) (clock : list Z) (now : Z) (sh : Shared)
  : result Shared :=
  '(s, out) ← Stats.finish (stats sh) thread_num clock now;
  Ok (mkShared (op_counter sh) (wrap64 (running_threads sh - 1)) s
        (logged sh ++ out) (requests sh)).

(** The local variables of a worker: its error count, and how it left its
    loop once it has. *)
Record Worker : Type := mkWorker {
  errcnt : Z;
  exited : option exit
}.

(** A turn of the scheduler: worker [tn_thread] runs one pass of its loop;
    [tn_clock] and [tn_now] are the readings its [finish] takes if the pass
    ends the loop. *)
Record Turn : Type := mkTurn {
  tn_thread : Z;
  tn_env : OpEnv;
  tn_clock : list Z;
  tn_now : Z
}.

(** One turn.  A worker that has left its loop has nothing more to run. *)
Definition turn (r : ascii) (g : Globals.t) (tn : Turn) (st : Shared * list Worker)
  : result (Shared * list Worker) :=
  let '(sh, ws) := st in
  wk ← index ws (tn_thread tn);
  match exited wk with
  | Some _ => Ok st
  | None =>
      '(sh1, errcnt', brk) ← passOf r g (tn_thread tn) (tn_env tn) sh (errcnt wk);
      match brk with
      | None => Ok (sh1, <[Z.to_nat (tn_thread tn) := mkWorker errcnt' None]> ws)
      | Some x =>
          sh2 ← workerExit (tn_thread tn) (tn_clock tn) (tn_now tn) sh1;
          Ok (sh2, <[Z.to_nat (tn_thread tn) := mkWorker errcnt' (Some x)]> ws)
      end
  end.

(** The workers of a phase under a schedule: passes of the workers' loops
    interleaved in any order. *)
Fixpoint runTurns (r : ascii) (g : Globals.t) (sched : list Turn)
    (st : Shared * list Worker) : result (Shared * list Worker) :=
  match sched with
  | [] => Ok st
  | tn :: sched' => st' ← turn r g tn st; runTurns r g sched' st'
  end.

(** What a call of [runWrapper] meets: the reading that sets the end time,
    the inputs of [makeStats], and the schedule of the workers. *)
Record PhaseEnv : Type := mkPhaseEnv {
  pe_now : Z;
  pe_start : Z;
  pe_clocks : list (list Z);
  pe_sched : list Turn
}.

(** The name a mode gives its statistics. *)
Definition modeName (r : ascii) : string :=
  if Ascii.eqb r "c"%char then "BCLR"
  else if Ascii.eqb r "x"%char then "BDEL"
  else if Ascii.eqb r "i"%char then "BINIT"
  else if Ascii.eqb r "p"%char then "PUT"
  else if Ascii.eqb r "l"%char then "LIST"
  else if Ascii.eqb r "g"%char then "GET"
  else "DEL".

(** The first lines of [runWrapper]: the end time, and the object count set
    back to −1 for a new put test when an earlier put test has set it. *)
Definition runWrapper_begin (g : Globals.t) (r : ascii) (now : Z) : Globals.t :=
  let g := Globals.set_endtime g
             (wrap64 (now + wrap64 (1000000000 * Globals.duration_secs g))) in
  if Ascii.eqb r "p"%char && Globals.object_count_flag g
  then Globals.set_object_count g (-1) false
  else g.

(** After the workers: the object count set from the counter when the user
    did not set it. *)
Definition runWrapper_pin (g : Globals.t) (r : ascii) (op : Z) : Globals.t :=
  if Ascii.eqb r "p"%char && (Globals.object_count g <? 0)
  then Globals.set_object_count g (wrap64 (op + 1)) true
  else g.

(** [for i := int64(0); i >= 0; i++ { ... }] of [runWrapper]. *)
Fixpoint collect (fuel : nat) (s : Stats.t) (i : Z) (os : list OutputStats)
  : result (list OutputStats) :=
  match fuel with
  | O => Starved
  | S fuel' =>
      if i <? 0 then Ok os else
      '(o, ok) ← Stats.makeOutputStats s i;
      if ok : bool then os' ← append os o; collect fuel' s (wrap64 (i + 1)) os'
      else Ok os
  end.

Section RunWrapper.

(** The workers of the four bucket modes (runBucketsClear, runBucketDelete,
    runBucketsInit, runBucketList) are not embedded: a phase of theirs is
    this function of the mode, the globals and what the workers share at
    the start. *)
Variable bucketPhase : ascii -> Globals.t -> PhaseEnv -> Shared -> result Shared.

Definition isObjectMode (r : ascii) : bool :=
  Ascii.eqb r "p"%char || Ascii.eqb r "g"%char || Ascii.eqb r "d"%char.

Definition isBucketMode (r : ascii) : bool :=
  Ascii.eqb r "c"%char || Ascii.eqb r "x"%char || Ascii.eqb r "i"%char || Ascii.eqb r "l"%char.

(** The [switch] of [runWrapper] and the wait for the workers. *)
Definition runWorkers (g : Globals.t) (loop : Z) (r : ascii) (env : PhaseEnv)
  : result Shared :=
  let intervalNano := int64_of_float (fmul (Globals.interval g) (Fin 1000000000)) in
  sh ←
    (if isObjectMode r || isBucketMode r then
       '(s, out) ← Stats.makeStats loop (modeName r) (Globals.threads g) intervalNano
                      (pe_start env) (pe_clocks env);
       let sh := mkShared (-1) (wrap64 (Globals.threads g)) s out [] in
       if isObjectMode r then
         '(sh', _) ← runTurns r g (pe_sched env)
                        (sh, replicate (Z.to_nat (Globals.threads g)) (mkWorker 0 None));
         Ok sh'
       else bucketPhase r g env sh
     else
       Ok (mkShared (-1) (wrap64 (Globals.threads g))
             (Stats.mk 0 0 "" 0 0 0 [] ∅ 0) [] []));
  if 0 <? running_threads sh then Starved else Ok sh.

(** [runWrapper]: the globals it leaves, the slice it returns, what it
    logged and what its workers sent. *)
Definition runWrapper (g : Globals.t) (loop : Z) (r : ascii) (env : PhaseEnv)
  : result (Globals.t * list OutputStats * list OutputStats * list request) :=
  let g1 := runWrapper_begin g r (pe_now env) in
  sh ← runWorkers g1 loop r env;
  let g2 := runWrapper_pin g1 r (op_counter sh) in
  os ← collect (S (size (Stats.intervalCompletions (stats sh)))) (stats sh) 0 [];
  '(o, ok, _) ← Stats.makeTotalStats (Globals.threads g2) (stats sh);
  if ok : bool then
    os' ← append os o; Ok (g2, os', logged sh ++ [o], requests sh)
  else Ok (g2, os, logged sh, requests sh).

End RunWrapper.

(** ** Vocabulary of the statements *)

(** The sum of a list of integers, without wrap-around. *)
Definition sumZ (l : list Z) : Z := foldr Z.add 0 l.

(** [r] is [p/100 × N] rounded to the nearest integer, a half going away
    from zero ([p] and [N] are not negative). *)
Definition nearest_ties_away (p N r : Z) : Prop :=
  p * N - 50 < 100 * r <= p * N + 50.

(** The literal that [makeOutputStats] multiplies by for percentile [p]. *)
Definition fraction (p : Z) : Q :=
  if p =? 50 then 0.5
  else if p =? 75 then 0.75
  else if p =? 90 then 0.9
  else if p =? 95 then 0.95
  else 0.99.

(** The percentile field of an output record. *)
Definition latOf (p : Z) (o : OutputStats) : float64 :=
  if p =? 50 then Lat50 o
  else if p =? 75 then Lat75 o
  else if p =? 90 then Lat90 o
  else if p =? 95 then Lat95 o
  else Lat99 o.

(** The sum of [f] over all workers and over every one of each worker's
    intervals. *)
Definition totalOver (f : IntervalStats.t -> Z) (s : Stats.t) : Z :=
  sumZ (map (fun ts => sumZ (map f (ThreadStats.intervals ts))) (Stats.threadStats s)).

(** The number of samples of an interval record. *)
Definition opsOf (c : IntervalStats.t) : Z := Z.of_nat (length (IntervalStats.latNano c)).

(** Every interval record of every worker, worker after worker. *)
Definition allCells (s : Stats.t) : list IntervalStats.t :=
  concat (map ThreadStats.intervals (Stats.threadStats s)).

(** Every sample of every interval of every worker. *)
Definition allSamples (s : Stats.t) : list Z :=
  concat (map IntervalStats.latNano (allCells s)).

(** The sum of [f] over the workers' records of interval [i]; a worker
    without an interval [i] adds nothing. *)
Definition intervalOver (f : IntervalStats.t -> Z) (s : Stats.t) (i : nat) : Z :=
  sumZ (map (fun ts => from_option f 0 (ThreadStats.intervals ts !! i))
            (Stats.threadStats s)).

(** The samples of interval [i] of every worker. *)
Definition intervalSamples (s : Stats.t) (i : nat) : list Z :=
  concat (map (fun ts => from_option IntervalStats.latNano []
                           (ThreadStats.intervals ts !! i))
              (Stats.threadStats s)).

(** The largest number of intervals a worker has. *)
Definition maxIntervals (s : Stats.t) : nat :=
  foldr Nat.max 0%nat (map (fun ts => length (ThreadStats.intervals ts)) (Stats.threadStats s)).

(** The number of workers whose ledger has gone past interval [i]. *)
Definition advancedPast (s : Stats.t) (i : Z) : Z :=
  Z.of_nat (length (filter (fun ts => i + 1 < Z.of_nat (length (ThreadStats.intervals ts)))
                           (Stats.threadStats s))).

(** The number of records logged for interval [i]. *)
Definition emissions (i : Z) (out : list OutputStats) : Z :=
  Z.of_nat (length (filter (fun o => IntervalName o = FormatInt i) out)).

(** [v] holds, worker by worker, the number of intervals the worker has
    voted for; [passed v i] is the number of votes interval [i] has. *)
Definition passed (v : list Z) (i : Z) : Z :=
  Z.of_nat (length (filter (fun x => i < x) v)).

Record ledger_ok (ts : ThreadStats.t) (x : Z) : Prop := mkLedgerOk {
  lo_len : Z.of_nat (length (ThreadStats.intervals ts)) < 2 ^ 63;
  lo_voted : 0 <= x <= Z.of_nat (length (ThreadStats.intervals ts)) - 1;
  lo_cur : ThreadStats.curInterval ts = Z.of_nat (length (ThreadStats.intervals ts)) - 1
           \/ ThreadStats.curInterval ts = -1
}.

Record barrier_inv (s : Stats.t) (out : list OutputStats) (v : list Z) : Prop :=
  mkBarrierInv {
  bi_threads : Z.of_nat (length (Stats.threadStats s)) <= Stats.threads s;
  bi_ledgers : Forall2 ledger_ok (Stats.threadStats s) v;
  bi_counts : forall i,
    Stats.intervalCompletions s !! i
    = if decide (0 <= i /\ 0 < passed v i) then Some (passed v i) else None;
  bi_log : forall i, 0 <= i ->
    emissions i out = if decide (passed v i = Stats.threads s) then 1 else 0
}.

(** The votes of workers that are not in the middle of a call. *)
Definition votesOf (s : Stats.t) : list Z :=
  map (fun ts => Z.of_nat (length (ThreadStats.intervals ts)) - 1) (Stats.threadStats s).

(** A phase of two threads with intervals of 10 ns that starts at time 0:
    worker 0 records an operation, reaches time 25 and advances to interval
    2; worker 1 records an operation, reaches time 15 and advances to
    interval 1; worker 0 finishes at time 27. *)
Definition demo_calls : list call :=
  [AddOp 0 4096 3; UpdateIntervals 0 [25; 25; 25]; AddOp 1 4096 5;
   UpdateIntervals 1 [15; 15]; AddOp 1 4096 4; Finish 0 [27] 27].

Definition demo_run : result (Stats.t * list OutputStats) :=
  st ← Stats.makeStats 0 "PUT" 2 10 0 [[5]; [5]]; runCalls demo_calls st.

(** The same phase with worker 1 finishing at time 31. *)
Definition demo_done : result (Stats.t * list OutputStats) :=
  st ← Stats.makeStats 0 "PUT" 2 10 0 [[5]; [5]];
  runCalls (demo_calls ++ [Finish 1 [31; 31; 31] 31]) st.

(** The number of failed requests of worker [t] among [rs]. *)
Definition failuresOf (t : Z) (rs : list request) : Z :=
  Z.of_nat (length (filter (fun rq => rq_thread rq = t /\ rq_err rq = true) rs)).

(** The number of requests of [rs] that succeeded. *)
Definition successes (rs : list request) : Z :=
  Z.of_nat (length (filter (fun rq => rq_err rq = false) rs)).

(** The longest run of consecutive failures in a sequence of outcomes
    ([true] is a failure); [cur] is the run in progress. *)
Fixpoint longestFailureRun (cur best : nat) (errs : list bool) : nat :=
  match errs with
  | [] => Nat.max cur best
  | true :: errs' => longestFailureRun (S cur) best errs'
  | false :: errs' => longestFailureRun 0 (Nat.max cur best) errs'
  end.

(** The error count of a worker against the requests sent since [rs0]:
    it counts the worker's failed requests, and the worker has left its loop
    for too many errors exactly when the count is three. *)
Definition worker_inv (rs0 rs : list request) (t : nat) (wk : Worker) : Prop :=
  errcnt wk = failuresOf (Z.of_nat t) rs - failuresOf (Z.of_nat t) rs0 /\
  ((exited wk = Some TooManyErrors /\ errcnt wk = 3) \/
   (exited wk <> Some TooManyErrors /\ 0 <= errcnt wk <= 2)).

(** One worker, one bucket, no object count, a report every hundred
    seconds, sixty seconds of run time. *)
Definition demo_globals : Globals.t :=
  Globals.mk 60 1 1 (-1) 4096 false 60000000000 (Fin 100) false
             ["hotsauce-bench000000000000"].

(** A pass of worker 0 at time 10 whose request fails or not. *)
Definition demo_turn (err : bool) : Turn :=
  mkTurn 0 (mkOpEnv 10 10 err 12 [13]) [14] 14.

(** Three failures with a success after each of the first two. *)
Definition demo_flaky_run : result (Shared * list Worker) :=
  '(s, out) ← Stats.makeStats 0 "PUT" 1 100000000000 0 [[1]];
  runTurns "p" demo_globals (map demo_turn [true; false; true; false; true])
    (mkShared (-1) 1 s out [], replicate 1 (mkWorker 0 None)).

(** A put phase of one worker: two objects written, then the end time is
    past. *)
Definition demo_put_env : PhaseEnv :=
  mkPhaseEnv 0 0 [[1]]
    [demo_turn false; demo_turn false;
     mkTurn 0 (mkOpEnv 61000000000 0 false 0 []) [61000000000] 61000000000].

(** What a pass of any of the three loops does to the requests, to the
    shared counter and to the error count of the worker. *)
Inductive pass_outcome (t : Z) (e : OpEnv) (sh : Shared) (errcnt : Z)
    (sh' : Shared) (errcnt' : Z) : option exit -> Prop :=
| pass_time_up :
    requests sh' = requests sh -> op_counter sh' = op_counter sh -> errcnt' = errcnt ->
    pass_outcome t e sh errcnt sh' errcnt' (Some TimeUp)
| pass_count_reached :
    requests sh' = requests sh -> errcnt' = errcnt ->
    pass_outcome t e sh errcnt sh' errcnt' (Some CountReached)
| pass_sent rq :
    requests sh' = requests sh ++ [rq] ->
    rq_thread rq = t -> rq_err rq = ev_err e ->
    errcnt' = (if ev_err e then wrap64 (errcnt + 1) else errcnt) ->
    pass_outcome t e sh errcnt sh' errcnt'
      (if 2 <? errcnt' then Some TooManyErrors else None).

(** * Properties *)

(** ** Machine integers and slices *)

Lemma wrap64_id z : in_int64 z -> wrap64 z = z.
Proof.
  unfold in_int64, wrap64. intros H.
  rewrite Z.mod_small; lia.
Qed.

Lemma wrap32_id z : in_int32 z -> wrap32 z = z.
Proof.
  unfold in_int32, wrap32. intros H.
  rewrite Z.mod_small; lia.
Qed.

Lemma wrap64_range z : in_int64 (wrap64 z).
Proof.
  unfold in_int64, wrap64.
  pose proof (Z.mod_pos_bound (z + 2 ^ 63) (2 ^ 64) ltac:(lia)). lia.
Qed.

Lemma wrap64_add_l a b : wrap64 (wrap64 a + b) = wrap64 (a + b).
Proof.
  unfold wrap64. f_equal.
  replace (((a + 2 ^ 63) mod 2 ^ 64 - 2 ^ 63 + b + 2 ^ 63))
    with ((a + 2 ^ 63) mod 2 ^ 64 + b) by lia.
  rewrite Zplus_mod_idemp_l. f_equal. lia.
Qed.

Lemma bind_Ok {A B} (a : A) (f : A -> result B) : (Ok a ≫= f) = f a.
Proof. reflexivity. Qed.

Lemma bind_Ok_inv {A B} (m : result A) (f : A -> result B) (b : B) :
  (m ≫= f) = Ok b -> exists a, m = Ok a /\ f a = Ok b.
Proof. destruct m; simpl; intros H; try discriminate. eauto. Qed.

Lemma index_Ok {A} (s : list A) (i : Z) (a : A) :
  index s i = Ok a <-> 0 <= i < Z.of_nat (length s) /\ s !! Z.to_nat i = Some a.
Proof.
  unfold index.
  destruct (0 <=? i) eqn:E1; destruct (i <? Z.of_nat (length s)) eqn:E2; simpl;
    try (split; [discriminate | lia]).
  destruct (s !! Z.to_nat i) eqn:E3; split.
  - intros [= ->]. split; [lia | done].
  - intros [_ [= ->]]. done.
  - discriminate.
  - intros [_ ?]. discriminate.
Qed.

Lemma index_in_range {A} (s : list A) (i : Z) :
  0 <= i < Z.of_nat (length s) -> exists a, index s i = Ok a /\ s !! Z.to_nat i = Some a.
Proof.
  intros H. destruct (lookup_lt_is_Some_2 s (Z.to_nat i)) as [a Ha]; [lia|].
  exists a. split; [|done]. apply index_Ok. done.
Qed.

Lemma index_out_of_range {A} (s : list A) (i : Z) :
  i < 0 \/ Z.of_nat (length s) <= i -> index s i = Panic.
Proof.
  unfold index. intros [H|H].
  - replace (0 <=? i) with false by lia. done.
  - replace (i <? Z.of_nat (length s)) with false by lia.
    by rewrite andb_false_r.
Qed.

(** ** The percentile index *)

Lemma round_half_away_frac (a : Z) (b : positive) (N : Z) :
  0 <= a -> 0 <= N ->
  round_half_away ((a # b) * inject_Z N) = (2 * a * N + Z.pos b) / (2 * Z.pos b).
Proof.
  intros Ha HN. unfold round_half_away.
  assert (Qle_bool 0 ((a # b) * inject_Z N) = true) as ->.
  { apply Qle_bool_iff. unfold Qle, Qmult, inject_Z. simpl. nia. }
  unfold Qfloor, Qplus, Qmult, inject_Z. simpl Qnum. simpl Qden.
  rewrite Pos.mul_1_r. f_equal; lia.
Qed.

Lemma pctIndex_frac (a : Z) (b : positive) (N : Z) :
  0 <= a <= Z.pos b -> 0 <= N < 2 ^ 63 ->
  IntervalStats.pctIndex (a # b) N = (2 * a * N + Z.pos b) / (2 * Z.pos b) - 1.
Proof.
  intros Ha HN. unfold IntervalStats.pctIndex, float64_of_int, fmul, math_Round.
  rewrite round_half_away_frac by lia.
  set (r := (2 * a * N + Z.pos b) / (2 * Z.pos b)).
  assert (0 <= r <= N) as Hr.
  { unfold r. split.
    - apply Z.div_pos; nia.
    - assert ((2 * a * N + Z.pos b) / (2 * Z.pos b) < N + 1); [|lia].
      apply Z.div_lt_upper_bound; nia. }
  unfold int64_of_float.
  assert (Qle_bool 0 (inject_Z r) = true) as ->.
  { apply Qle_bool_iff. unfold Qle, inject_Z. simpl. lia. }
  rewrite Qfloor_Z.
  replace ((- 2 ^ 63 <=? r) && (r <? 2 ^ 63)) with true by lia.
  apply wrap64_id. unfold in_int64. lia.
Qed.

Lemma pctIndex_fraction (p N : Z) :
  p ∈ [50; 75; 90; 95; 99] -> 0 <= N < 2 ^ 63 ->
  IntervalStats.pctIndex (fraction p) N = (p * N + 50) / 100 - 1.
Proof.
  intros Hp HN.
  assert (forall k a n, 0 < k -> 0 < n -> k * n = 100 -> k * a = p ->
            (2 * a * N + n) / (2 * n) = (p * N + 50) / 100) as Hdiv.
  { intros k a n Hk Hn Hkn Hka.
    rewrite <- (Z.div_mul_cancel_l (2 * a * N + n) (2 * n) k) by lia.
    rewrite <- (Z.div_mul_cancel_l (p * N + 50) 100 2) by lia.
    f_equal; nia. }
  repeat (apply elem_of_cons in Hp as [-> | Hp]);
    [| | | | | by apply elem_of_nil in Hp];
    unfold fraction; simpl; rewrite pctIndex_frac by lia; f_equal.
  - apply (Hdiv 10); lia.
  - apply (Hdiv 1); lia.
  - apply (Hdiv 10); lia.
  - apply (Hdiv 1); lia.
  - apply (Hdiv 1); lia.
Qed.

Lemma pctIndex_spec (p N : Z) :
  p ∈ [50; 75; 90; 95; 99] -> 1 <= N < 2 ^ 63 ->
  let idx := IntervalStats.pctIndex (fraction p) N in
  nearest_ties_away p N (idx + 1) /\ 0 <= idx <= N - 1.
Proof.
  intros Hp HN idx.
  assert (idx = (p * N + 50) / 100 - 1) as -> by (apply pctIndex_fraction; [done | lia]).
  assert (50 <= p <= 99) as Hp'.
  { repeat (apply elem_of_cons in Hp as [-> | Hp]); try lia.
    by apply elem_of_nil in Hp. }
  unfold nearest_ties_away.
  pose proof (Z.div_mod (p * N + 50) 100 ltac:(lia)).
  pose proof (Z.mod_pos_bound (p * N + 50) 100 ltac:(lia)).
  split; [lia|]. split.
  - assert (50 * 1 <= p * N) by (apply Z.mul_le_mono_nonneg; lia).
    assert (1 <= (p * N + 50) / 100); [|lia].
    apply Z.div_le_lower_bound; lia.
  - assert (p * N <= 99 * N) by (apply Z.mul_le_mono_nonneg_r; lia).
    assert ((p * N + 50) / 100 < N + 1); [|lia].
    apply Z.div_lt_upper_bound; lia.
Qed.

(** On the sample counts above the index computed in binary64 is the index
    of the embedding, halves included. *)
Lemma pctIndex_binary64 :
  forallb (fun n =>
             forallb (fun l : float * Q =>
                        pctIndex64 l.1 n =? IntervalStats.pctIndex l.2 n) literals)
          sampleCounts = true.
Proof. vm_compute. reflexivity. Qed.

(** ** IntervalStats.makeOutputStats *)

Lemma millis_Fin x : IntervalStats.millis x = Fin (inject_Z x / 1000000).
Proof. reflexivity. Qed.

Lemma totalLat_wrap l : IntervalStats.totalLat l = wrap64 (sumZ l).
Proof.
  unfold IntervalStats.totalLat.
  assert (forall acc, fold_left (fun a x => wrap64 (a + x)) l (wrap64 acc)
                      = wrap64 (acc + sumZ l)) as H.
  { induction l as [|x l IH]; intros acc; simpl.
    - f_equal. lia.
    - rewrite wrap64_add_l, IH. f_equal. lia. }
  specialize (H 0). replace (wrap64 0) with 0 in H by reflexivity.
  rewrite H. reflexivity.
Qed.

Lemma latAt_Ok (p : Z) (l : list Z) :
  p ∈ [50; 75; 90; 95; 99] -> 1 <= Z.of_nat (length l) < 2 ^ 63 ->
  exists idx x,
    IntervalStats.latAt (fraction p) l (Z.of_nat (length l))
      = Ok (Fin (inject_Z x / 1000000)) /\
    idx = IntervalStats.pctIndex (fraction p) (Z.of_nat (length l)) /\
    nearest_ties_away p (Z.of_nat (length l)) (idx + 1) /\
    0 <= idx <= Z.of_nat (length l) - 1 /\
    l !! Z.to_nat idx = Some x.
Proof.
  intros Hp HN.
  destruct (pctIndex_spec p _ Hp HN) as [Hr Hb].
  destruct (index_in_range l _ ltac:(split; [apply Hb | lia])) as (x & Hx & Hl).
  eexists _, x. split; [|split; [reflexivity|done]].
  unfold IntervalStats.latAt. rewrite Hx. reflexivity.
Qed.

Lemma fdiv_Fin_nonzero (x y : Q) : ~ Qeq y 0 -> fdiv (Fin x) (Fin y) = Fin (x / y).
Proof.
  intros H. unfold fdiv.
  destruct (Qeq_bool y 0) eqn:E; [|done].
  apply Qeq_bool_iff in E. done.
Qed.

Lemma inject_Z_nonzero (z : Z) : z <> 0 -> ~ Qeq (inject_Z z) 0.
Proof. unfold Qeq, inject_Z. simpl. lia. Qed.

(** With at least one sample no index expression of the [if ops > 0] block
    leaves the slice. *)
Lemma latFields_nonempty (l : list Z) :
  1 <= Z.of_nat (length l) < 2 ^ 63 ->
  exists lf, IntervalStats.latFields l = Ok lf /\
    (exists x0, l !! 0%nat = Some x0 /\
                IntervalStats.minLat lf = Fin (inject_Z x0 / 1000000)) /\
    (exists xn, l !! (length l - 1)%nat = Some xn /\
                IntervalStats.maxLat lf = Fin (inject_Z xn / 1000000)) /\
    IntervalStats.avgLat lf
      = Fin (inject_Z (wrap64 (sumZ l)) / inject_Z (Z.of_nat (length l)) / 1000000) /\
    (forall p, p ∈ [50; 75; 90; 95; 99] ->
       IntervalStats.latAt (fraction p) l (Z.of_nat (length l))
         = Ok (latOf p (mkOutputStats 0 "" (Fin 0) "" 0 (Fin 0) (Fin 0)
                          (IntervalStats.minLat lf) (IntervalStats.avgLat lf)
                          (IntervalStats.lat99 lf) (IntervalStats.lat95 lf)
                          (IntervalStats.lat90 lf) (IntervalStats.lat75 lf)
                          (IntervalStats.lat50 lf) (IntervalStats.maxLat lf) 0))).
Proof.
  intros HN. unfold IntervalStats.latFields.
  replace (0 <? Z.of_nat (length l)) with true by lia.
  destruct (index_in_range l 0 ltac:(lia)) as (x0 & -> & H0).
  destruct (index_in_range l (Z.of_nat (length l) - 1) ltac:(lia)) as (xn & -> & Hn).
  pose proof (latAt_Ok 99 l ltac:(repeat constructor) HN) as (? & x99 & E99 & _).
  pose proof (latAt_Ok 95 l ltac:(repeat constructor) HN) as (? & x95 & E95 & _).
  pose proof (latAt_Ok 90 l ltac:(repeat constructor) HN) as (? & x90 & E90 & _).
  pose proof (latAt_Ok 75 l ltac:(repeat constructor) HN) as (? & x75 & E75 & _).
  pose proof (latAt_Ok 50 l ltac:(repeat constructor) HN) as (? & x50 & E50 & _).
  change (fraction 99) with 0.99%Q in E99. change (fraction 95) with 0.95%Q in E95.
  change (fraction 90) with 0.9%Q in E90. change (fraction 75) with 0.75%Q in E75.
  change (fraction 50) with 0.5%Q in E50.
  rewrite !bind_Ok, E99, bind_Ok, E95, bind_Ok, E90, bind_Ok, E75, bind_Ok, E50, bind_Ok.
  eexists. split; [reflexivity|].
  cbn [IntervalStats.minLat IntervalStats.maxLat IntervalStats.avgLat
       IntervalStats.lat99 IntervalStats.lat95 IntervalStats.lat90
       IntervalStats.lat75 IntervalStats.lat50].
  split; [exists x0; split; [done | apply millis_Fin]|].
  split.
  { exists xn. split; [|apply millis_Fin].
    rewrite <- Hn. f_equal. lia. }
  split.
  { rewrite totalLat_wrap. unfold float64_of_int.
    rewrite fdiv_Fin_nonzero by (apply inject_Z_nonzero; lia).
    by rewrite fdiv_Fin_nonzero. }
  intros p Hp.
  repeat (apply elem_of_cons in Hp as [-> | Hp]);
    [| | | | | by apply elem_of_nil in Hp]; unfold latOf; simpl; done.
Qed.

Lemma latFields_empty : IntervalStats.latFields [] =
  Ok (IntervalStats.mkLatFields (Fin 0) (Fin 0) (Fin 0) (Fin 0) (Fin 0) (Fin 0)
        (Fin 0) (Fin 0)).
Proof. reflexivity. Qed.

(** [makeOutputStats] never panics on a slice. *)
Lemma makeOutputStats_Ok (ivs : IntervalStats.t) :
  Z.of_nat (length (IntervalStats.latNano ivs)) < 2 ^ 63 ->
  exists lf, IntervalStats.latFields (IntervalStats.latNano ivs) = Ok lf /\
    IntervalStats.makeOutputStats ivs =
    Ok (mkOutputStats (IntervalStats.loop ivs) (IntervalStats.name ivs)
          (fdiv (float64_of_int (IntervalStats.intervalNano ivs)) (Fin 1000000000))
          (IntervalStats.mode ivs)
          (Z.of_nat (length (IntervalStats.latNano ivs)))
          (fdiv (fdiv (float64_of_int (IntervalStats.bytes ivs))
                   (fdiv (float64_of_int (IntervalStats.intervalNano ivs))
                      (Fin 1000000000)))
             (float64_of_int bytefmt_MEGABYTE))
          (fdiv (float64_of_int (Z.of_nat (length (IntervalStats.latNano ivs))))
             (fdiv (float64_of_int (IntervalStats.intervalNano ivs)) (Fin 1000000000)))
          (IntervalStats.minLat lf) (IntervalStats.avgLat lf)
          (IntervalStats.lat99 lf) (IntervalStats.lat95 lf)
          (IntervalStats.lat90 lf) (IntervalStats.lat75 lf)
          (IntervalStats.lat50 lf) (IntervalStats.maxLat lf)
          (IntervalStats.slowdowns ivs)).
Proof.
  intros HN. unfold IntervalStats.makeOutputStats.
  destruct (IntervalStats.latNano ivs) as [|x l] eqn:E.
  - eexists. split; reflexivity.
  - destruct (latFields_nonempty (x :: l)) as (lf & Hlf & _).
    { split; [simpl; lia | done]. }
    exists lf. split; [done|]. rewrite Hlf. reflexivity.
Qed.

Lemma sumZ_Permutation (l k : list Z) : l ≡ₚ k -> sumZ l = sumZ k.
Proof.
  induction 1; simpl; lia.
Qed.

Lemma sortLat_Sorted l : Sorted Z.le (sortLat l).
Proof. apply (Sorted_merge_sort Z.le). Qed.

Lemma sortLat_Permutation l : sortLat l ≡ₚ l.
Proof. apply merge_sort_Permutation. Qed.

Lemma sortLat_length l : length (sortLat l) = length l.
Proof. apply Permutation_length, sortLat_Permutation. Qed.

(** C1: for a non-empty sample set, handed over sorted ascending,
    [makeOutputStats] returns a record (no index leaves the slice) whose
    minimum and maximum are the first and last sample, whose average is
    the sum over N, and whose percentile [p] in {50, 75, 90, 95, 99} is the
    sample at index round(p/100 × N) − 1, rounded to nearest with halves
    away from zero; the index lies in [0, N−1], so clamping it there leaves
    it as it is. *)
Theorem C1_makeOutputStats_nearest_rank (ivs : IntervalStats.t) (samples : list Z) :
  samples <> [] ->
  Z.of_nat (length samples) < 2 ^ 63 ->
  in_int64 (sumZ samples) ->
  IntervalStats.latNano ivs = sortLat samples ->
  let l := sortLat samples in
  let N := Z.of_nat (length samples) in
  Sorted Z.le l /\ l ≡ₚ samples /\
  exists o, IntervalStats.makeOutputStats ivs = Ok o /\
    Ops o = N /\
    (exists x0, l !! 0%nat = Some x0 /\ MinLat o = Fin (inject_Z x0 / 1000000)) /\
    (exists xn, l !! (length l - 1)%nat = Some xn /\
                MaxLat o = Fin (inject_Z xn / 1000000)) /\
    AvgLat o = Fin (inject_Z (sumZ samples) / inject_Z N / 1000000) /\
    forall p, p ∈ [50; 75; 90; 95; 99] ->
      exists idx x,
        nearest_ties_away p N (idx + 1) /\
        0 <= idx <= N - 1 /\
        Z.max 0 (Z.min (N - 1) idx) = idx /\
        l !! Z.to_nat idx = Some x /\
        latOf p o = Fin (inject_Z x / 1000000).
Proof.
  intros Hne Hlen Hsum Hlat l N.
  split; [apply sortLat_Sorted|]. split; [apply sortLat_Permutation|].
  assert (length l = length samples) as Hl by apply sortLat_length.
  assert (1 <= N) as HN1.
  { unfold N. destruct samples; [done | simpl; lia]. }
  destruct (makeOutputStats_Ok ivs) as (lf & Hlf & Ho).
  { rewrite Hlat. fold l. rewrite Hl. done. }
  rewrite Hlat in Hlf, Ho. fold l in Hlf, Ho.
  destruct (latFields_nonempty l) as (lf' & Hlf' & Hmin & Hmax & Havg & Hpct).
  { rewrite Hl. fold N. lia. }
  rewrite Hlf in Hlf'. injection Hlf' as <-.
  eexists. split; [exact Ho|]. simpl.
  split; [by rewrite Hl|]. split; [done|]. split; [done|].
  split.
  { rewrite Havg, Hl. fold N.
    rewrite (sumZ_Permutation l samples) by apply sortLat_Permutation.
    by rewrite (wrap64_id (sumZ samples)). }
  intros p Hp.
  destruct (latAt_Ok p l Hp) as (idx & x & Hat & _ & Hround & Hb & Hx).
  { rewrite Hl. fold N. lia. }
  rewrite Hl in Hround, Hb. fold N in Hround, Hb.
  exists idx, x. split; [done|]. split; [done|]. split; [lia|]. split; [done|].
  specialize (Hpct p Hp). rewrite Hat in Hpct. injection Hpct as Hpct.
  rewrite Hpct. unfold latOf. simpl. reflexivity.
Qed.

(** A run of C1 on four samples. *)
Lemma C1_makeOutputStats_nearest_rank_witness :
  exists o,
    IntervalStats.makeOutputStats
      (IntervalStats.mk 0 "0" "PUT" 4194304 0 1000000000
         (sortLat [5000000; 1000000; 3000000; 2000000])) = Ok o /\
    latOf 50 o = Fin (inject_Z 2000000 / 1000000) /\
    latOf 75 o = Fin (inject_Z 3000000 / 1000000).
Proof.
  destruct (C1_makeOutputStats_nearest_rank
              (IntervalStats.mk 0 "0" "PUT" 4194304 0 1000000000
                 (sortLat [5000000; 1000000; 3000000; 2000000]))
              [5000000; 1000000; 3000000; 2000000])
    as (_ & _ & o & Ho & _);
    [discriminate | simpl; lia | unfold in_int64; simpl; lia | reflexivity |].
  exists o. split; [exact Ho|].
  vm_compute in Ho. injection Ho as <-. split; reflexivity.
Defined.

(** ** Throughput and the empty sample set *)

Lemma seconds_Fin (n : Z) :
  fdiv (float64_of_int n) (Fin 1000000000) = Fin (inject_Z n / 1000000000).
Proof. reflexivity. Qed.

Lemma seconds_nonzero (n : Z) : n <> 0 -> ~ Qeq (inject_Z n / 1000000000) 0.
Proof.
  intros Hn H. apply (inject_Z_nonzero n Hn).
  unfold Qeq, Qdiv, Qmult, inject_Z in *. simpl in *. lia.
Qed.

(** C6, as the code has it: the throughput of a record is its bytes over
    the elapsed seconds over [bytefmt.MEGABYTE], which is 1,048,576 (the
    binary megabyte), and IOPS is the number of samples over the elapsed
    seconds; for a duration other than zero both are the quotients of the
    exact values. *)
Theorem C6_throughput_binary_megabyte (ivs : IntervalStats.t) :
  Z.of_nat (length (IntervalStats.latNano ivs)) < 2 ^ 63 ->
  IntervalStats.intervalNano ivs <> 0 ->
  exists o, IntervalStats.makeOutputStats ivs = Ok o /\
    Seconds o = Fin (inject_Z (IntervalStats.intervalNano ivs) / 1000000000) /\
    Mbps o = fdiv (fdiv (float64_of_int (IntervalStats.bytes ivs)) (Seconds o))
               (Fin 1048576) /\
    Iops o = fdiv (float64_of_int (Ops o)) (Seconds o) /\
    Ops o = Z.of_nat (length (IntervalStats.latNano ivs)) /\
    feq (Mbps o)
        (Fin (inject_Z (IntervalStats.bytes ivs)
              / (inject_Z (IntervalStats.intervalNano ivs) / 1000000000)
              / 1048576)) /\
    feq (Iops o)
        (Fin (inject_Z (Z.of_nat (length (IntervalStats.latNano ivs)))
              / (inject_Z (IntervalStats.intervalNano ivs) / 1000000000))).
Proof.
  intros Hlen Hn.
  destruct (makeOutputStats_Ok ivs Hlen) as (lf & _ & Ho).
  eexists. split; [exact Ho|]. cbn [Seconds Mbps Iops Ops].
  split; [apply seconds_Fin|]. split; [reflexivity|]. split; [reflexivity|].
  split; [reflexivity|].
  rewrite seconds_Fin. unfold float64_of_int.
  rewrite !(fdiv_Fin_nonzero _ (inject_Z (IntervalStats.intervalNano ivs) / 1000000000))
    by (by apply seconds_nonzero).
  rewrite fdiv_Fin_nonzero by done.
  split; simpl; reflexivity.
Qed.

(** A record of one binary megabyte moved in one second. *)
Lemma C6_throughput_binary_megabyte_witness :
  exists o,
    IntervalStats.makeOutputStats (IntervalStats.mk 0 "0" "PUT" 1048576 0 1000000000 [7])
      = Ok o /\ feq (Mbps o) (Fin 1).
Proof.
  destruct (C6_throughput_binary_megabyte
              (IntervalStats.mk 0 "0" "PUT" 1048576 0 1000000000 [7]))
    as (o & Ho & _ & _ & _ & _ & Hm & _); [simpl; lia | discriminate |].
  exists o. split; [exact Ho|].
  vm_compute in Ho. injection Ho as <-. reflexivity.
Defined.

(** C6 as the specification words it fails: one binary megabyte in one
    second is reported as 1 MB/s, not as 1.048576 MB/s. *)
Lemma C6_decimal_megabyte_counterexample :
  exists o,
    IntervalStats.makeOutputStats (IntervalStats.mk 0 "0" "PUT" 1048576 0 1000000000 [7])
      = Ok o /\
    ~ feq (Mbps o)
          (Fin (inject_Z 1048576 / (inject_Z 1000000000 / 1000000000) / 1000000)).
Proof.
  eexists. split; [reflexivity|].
  vm_compute. discriminate.
Qed.

(** C9, as the code has it: with no sample every latency field is exactly
    0 and no index expression is evaluated; IOPS is 0 when the elapsed
    duration is not zero, and the quotient 0/0, not a number, when it is
    zero.  No outcome is a fault. *)
Theorem C9_empty_sample_set (ivs : IntervalStats.t) :
  IntervalStats.latNano ivs = [] ->
  exists o, IntervalStats.makeOutputStats ivs = Ok o /\
    Ops o = 0 /\
    MinLat o = Fin 0 /\ AvgLat o = Fin 0 /\ Lat50 o = Fin 0 /\ Lat75 o = Fin 0 /\
    Lat90 o = Fin 0 /\ Lat95 o = Fin 0 /\ Lat99 o = Fin 0 /\ MaxLat o = Fin 0 /\
    if IntervalStats.intervalNano ivs =? 0
    then Iops o = NaN
    else feq (Iops o) (Fin 0).
Proof.
  intros Hl. unfold IntervalStats.makeOutputStats. rewrite Hl, latFields_empty, bind_Ok.
  eexists. split; [reflexivity|]. cbn -[fdiv float64_of_int].
  repeat (split; [reflexivity|]).
  rewrite seconds_Fin. unfold float64_of_int.
  destruct (IntervalStats.intervalNano ivs =? 0) eqn:E.
  - apply Z.eqb_eq in E. rewrite E. reflexivity.
  - apply Z.eqb_neq in E.
    rewrite fdiv_Fin_nonzero by (by apply seconds_nonzero).
    simpl. unfold Qeq. simpl. lia.
Qed.

(** An empty interval of one second. *)
Lemma C9_empty_sample_set_witness :
  exists o,
    IntervalStats.makeOutputStats (IntervalStats.mk 0 "3" "GET" 0 0 1000000000 []) = Ok o /\
    feq (Iops o) (Fin 0).
Proof.
  destruct (C9_empty_sample_set (IntervalStats.mk 0 "3" "GET" 0 0 1000000000 []))
    as (o & Ho & _ & _ & _ & _ & _ & _ & _ & _ & _ & Hi); [reflexivity|].
  exists o. split; [exact Ho | exact Hi].
Defined.

(** C9 as the specification words it fails for a record of zero duration:
    IOPS is 0/0. *)
Lemma C9_zero_duration_counterexample :
  exists o,
    IntervalStats.makeOutputStats (IntervalStats.mk 0 "TOTAL" "PUT" 0 0 0 []) = Ok o /\
    ~ feq (Iops o) (Fin 0).
Proof.
  eexists. split; [reflexivity|]. simpl. tauto.
Qed.

(** ** ThreadStats.updateIntervals *)

Lemma updateIntervals_negative clock ts loop mode intervalNano :
  intervalNano < 0 ->
  ThreadStats.updateIntervals clock ts loop mode intervalNano
    = Ok (ThreadStats.curInterval ts, ts).
Proof.
  intros H. unfold ThreadStats.updateIntervals.
  by replace (intervalNano <? 0) with true by lia.
Qed.

Lemma advance_zero_never_Ok clock : forall ts loop mode,
  in_int64 (ThreadStats.start ts) ->
  Forall (fun now => ThreadStats.start ts < now) clock ->
  forall ts', ThreadStats.advance clock ts loop mode 0 <> Ok ts'.
Proof.
  induction clock as [|now clock IH]; intros ts loop mode Hs Hc ts'; [done|].
  apply Forall_cons in Hc as [Hnow Hc]. simpl.
  rewrite Z.mul_0_l. change (wrap64 0) with 0.
  rewrite Z.add_0_r, wrap64_id by done.
  replace (ThreadStats.start ts <? now) with true by lia.
  destruct (append _ _) as [ivs| |]; unfold mbind, result_bind; simpl; [|done|done].
  apply IH; done.
Qed.

(** C4 on the code: a negative width makes [updateIntervals] return the
    current index and leave the ledger as it is, without reading the clock;
    a width of zero does not: once the clock has passed the start of the
    phase, the loop's condition holds at every reading, an interval is
    appended at each, and the call returns for no number of readings. *)
Theorem C4_updateIntervals_width (clock : list Z) (ts : ThreadStats.t)
    (loop : Z) (mode : string) (intervalNano : Z) :
  in_int64 (ThreadStats.start ts) ->
  Forall (fun now => ThreadStats.start ts < now) clock ->
  (intervalNano < 0 ->
     ThreadStats.updateIntervals clock ts loop mode intervalNano
       = Ok (ThreadStats.curInterval ts, ts)) /\
  (intervalNano = 0 ->
     forall r, ThreadStats.updateIntervals clock ts loop mode intervalNano <> Ok r).
Proof.
  intros Hs Hc. split.
  - apply updateIntervals_negative.
  - intros -> r. unfold ThreadStats.updateIntervals. simpl.
    destruct (ThreadStats.advance clock ts loop mode 0) as [ts'| |] eqn:E;
      unfold mbind, result_bind; [|done|done].
    by destruct (advance_zero_never_Ok clock ts loop mode Hs Hc ts').
Qed.

(** A ledger started at 0, read at times 1, 2 and 3 with a width of zero:
    three intervals later the loop still runs. *)
Lemma C4_updateIntervals_width_witness :
  ThreadStats.updateIntervals [1; 2; 3] (ThreadStats.makeThreadStats 0 0 "PUT" 0) 0 "PUT" 0
    = Starved /\
  ThreadStats.updateIntervals [1; 2; 3] (ThreadStats.makeThreadStats 0 0 "PUT" (-1)) 0 "PUT" (-1)
    = Ok (0, ThreadStats.makeThreadStats 0 0 "PUT" (-1)).
Proof.
  split.
  - pose proof (C4_updateIntervals_width [1; 2; 3]
                  (ThreadStats.makeThreadStats 0 0 "PUT" 0) 0 "PUT" 0
                  ltac:(unfold in_int64; simpl; lia)
                  ltac:(repeat constructor)) as [_ H].
    specialize (H eq_refl).
    destruct (ThreadStats.updateIntervals _ _ _ _ _) as [r| |] eqn:E.
    + by destruct (H r).
    + vm_compute in E. discriminate.
    + reflexivity.
  - apply (C4_updateIntervals_width [1; 2; 3]
             (ThreadStats.makeThreadStats 0 0 "PUT" (-1)) 0 "PUT" (-1));
      [unfold in_int64; simpl; lia | repeat constructor | lia].
Defined.

(** ** Loops over a range *)

Lemma forRange_empty {St} (lo hi : Z) (body : Z -> St -> result St) (acc : St) :
  hi <= lo -> forRange lo hi body acc = Ok acc.
Proof.
  intros H. unfold forRange. rewrite seqZ_nil by lia. reflexivity.
Qed.

Lemma foldl_bind_not_Ok {St} (body : Z -> St -> result St) (l : list Z) (r : result St) :
  (forall a, r <> Ok a) -> foldl (fun r i => a ← r; body i a) r l = r.
Proof.
  revert r. induction l as [|i l IH]; intros r Hr; [done|]. simpl.
  destruct r as [a| |]; [by destruct (Hr a)| |]; apply IH; done.
Qed.

Lemma forRange_first {St} (lo hi : Z) (body : Z -> St -> result St) (acc : St) :
  lo < hi ->
  forRange lo hi body acc = (a ← body lo acc; forRange (lo + 1) hi body a).
Proof.
  intros H. unfold forRange. rewrite seqZ_cons by lia. simpl.
  replace (Z.pred (hi - lo)) with (hi - (lo + 1)) by lia.
  replace (Z.succ lo) with (lo + 1) by lia.
  destruct (body lo acc) as [a| |]; [done| |]; by rewrite foldl_bind_not_Ok.
Qed.

Lemma forRange_last {St} (lo hi : Z) (body : Z -> St -> result St) (acc : St) :
  lo <= hi ->
  forRange lo (hi + 1) body acc = (a ← forRange lo hi body acc; body hi a).
Proof.
  intros H. unfold forRange.
  replace (hi + 1 - lo) with (Z.of_nat (S (Z.to_nat (hi - lo)))) by lia.
  rewrite seqZ_S, foldl_app. simpl.
  replace (Z.of_nat (Z.to_nat (hi - lo))) with (hi - lo) by lia.
  replace (lo + (hi - lo)) with hi by lia. reflexivity.
Qed.

(** A loop whose body reads [l[i]] and cannot fail is a fold over [l]. *)
Lemma forRange_foldl {A St} (l : list A) (body : Z -> St -> result St) (f : St -> A -> St)
    (acc : St) :
  (forall (i : nat) x a, l !! i = Some x -> body (Z.of_nat i) a = Ok (f a x)) ->
  forRange 0 (Z.of_nat (length l)) body acc = Ok (foldl f acc l).
Proof.
  induction l as [|x l IH] using rev_ind; intros Hb.
  - reflexivity.
  - rewrite length_app. simpl.
    replace (Z.of_nat (length l + 1)) with (Z.of_nat (length l) + 1) by lia.
    rewrite forRange_last by lia.
    rewrite IH.
    + rewrite bind_Ok, foldl_app. simpl. apply Hb.
      rewrite lookup_app_r by lia. by rewrite Nat.sub_diag.
    + intros i y a Hy. apply Hb. by rewrite lookup_app_l by (by eapply lookup_lt_Some).
Qed.

Lemma forRange_not_Starved {St} (lo hi : Z) (body : Z -> St -> result St) (acc : St) :
  (forall i a, body i a <> Starved) -> forRange lo hi body acc <> Starved.
Proof.
  intros Hb. unfold forRange.
  generalize (seqZ lo (hi - lo)). intros l.
  assert (forall r, r <> Starved -> foldl (fun r i => a ← r; body i a) r l <> Starved) as H.
  { induction l as [|i l IH]; intros r Hr; [done|]. simpl. apply IH.
    destruct r; [apply Hb|done|done]. }
  by apply H.
Qed.

(** ** The read paths of Stats *)

Lemma bind_not_Starved {A B} (m : result A) (f : A -> result B) :
  m <> Starved -> (forall a, f a <> Starved) -> (m ≫= f) <> Starved.
Proof. destruct m; simpl; intros Hm Hf; [apply Hf | done | done]. Qed.

Lemma index_not_Starved {A} (s : list A) (i : Z) : index s i <> Starved.
Proof.
  unfold index. destruct ((0 <=? i) && (i <? Z.of_nat (length s))); [|done].
  by destruct (s !! Z.to_nat i).
Qed.

Lemma IntervalStats_makeOutputStats_not_Starved ivs :
  IntervalStats.makeOutputStats ivs <> Starved.
Proof.
  unfold IntervalStats.makeOutputStats, IntervalStats.latFields, IntervalStats.latAt.
  apply bind_not_Starved; [|done].
  destruct (0 <? _); [|done].
  repeat (apply bind_not_Starved; [apply index_not_Starved | intros ?]); try done.
  repeat (apply bind_not_Starved;
          [apply bind_not_Starved; [apply index_not_Starved | done] | intros ?]).
  done.
Qed.

Lemma cell_not_Starved s th i : Stats.cell s th i <> Starved.
Proof.
  unfold Stats.cell. apply bind_not_Starved; [apply index_not_Starved|].
  intros ?. apply index_not_Starved.
Qed.

Lemma lenIntervals_not_Starved s th : Stats.lenIntervals s th <> Starved.
Proof.
  unfold Stats.lenIntervals. by apply bind_not_Starved; [apply index_not_Starved|].
Qed.

Lemma intervalRecord_not_Starved s i : Stats.intervalRecord s i <> Starved.
Proof.
  unfold Stats.intervalRecord. apply bind_not_Starved.
  { apply forRange_not_Starved. intros th a.
    by apply bind_not_Starved; [apply cell_not_Starved|]. }
  intros sums. destruct (Stats.sOps sums <? 0); [done|].
  apply bind_not_Starved; [|done].
  apply forRange_not_Starved. intros th a.
  by apply bind_not_Starved; [apply cell_not_Starved|].
Qed.

Lemma totalRecord_not_Starved s : Stats.totalRecord s <> Starved.
Proof.
  unfold Stats.totalRecord. apply bind_not_Starved.
  { apply forRange_not_Starved. intros th a.
    apply bind_not_Starved; [apply lenIntervals_not_Starved|]. intros n.
    apply forRange_not_Starved. intros i b.
    by apply bind_not_Starved; [apply cell_not_Starved|]. }
  intros sums. destruct (Stats.sOps sums <? 0); [done|].
  apply bind_not_Starved; [|done].
  apply forRange_not_Starved. intros th a.
  apply bind_not_Starved; [apply lenIntervals_not_Starved|]. intros n.
  apply forRange_not_Starved. intros i b.
  by apply bind_not_Starved; [apply cell_not_Starved|].
Qed.

Lemma Stats_makeOutputStats_not_Starved s i : Stats.makeOutputStats s i <> Starved.
Proof.
  unfold Stats.makeOutputStats.
  destruct ((Stats.intervalNano s <? 0) || (i <? 0)); [done|].
  destruct (Stats.intervalCompletions s !! i) as [count|]; [|done].
  destruct (count <? wrap32 (Stats.threads s)); [done|].
  apply bind_not_Starved; [apply intervalRecord_not_Starved|]. intros ivs.
  by apply bind_not_Starved; [apply IntervalStats_makeOutputStats_not_Starved|].
Qed.

Lemma makeTotalStats_not_Starved g_threads s : Stats.makeTotalStats g_threads s <> Starved.
Proof.
  unfold Stats.makeTotalStats.
  destruct (Stats.completions s <? wrap32 g_threads); [done|].
  apply bind_not_Starved; [apply totalRecord_not_Starved|]. intros ivs.
  by apply bind_not_Starved; [apply IntervalStats_makeOutputStats_not_Starved|].
Qed.

(** C8: the per-interval read returns the empty record and [false] when
    the interval has no completion counter or a counter below the worker
    count; the total read returns the empty record and [false] when fewer
    workers than the worker count have finished; neither read waits for
    anything: no outcome of either is a wait. *)
Theorem C8_reads_refuse (g_threads : Z) (s : Stats.t) (i : Z) :
  in_int32 (Stats.threads s) ->
  in_int32 g_threads ->
  (match Stats.intervalCompletions s !! i with
   | None => True
   | Some count => count < Stats.threads s
   end ->
   Stats.makeOutputStats s i = Ok (OutputStats_zero, false)) /\
  (Stats.completions s < g_threads ->
   exists log, Stats.makeTotalStats g_threads s = Ok (OutputStats_zero, false, log)) /\
  Stats.makeOutputStats s i <> Starved /\
  Stats.makeTotalStats g_threads s <> Starved.
Proof.
  intros Ht Hg. split; [|split; [|split]].
  - intros Hc. unfold Stats.makeOutputStats.
    destruct ((Stats.intervalNano s <? 0) || (i <? 0)); [done|].
    destruct (Stats.intervalCompletions s !! i) as [count|]; [|done].
    rewrite wrap32_id by done.
    by replace (count <? Stats.threads s) with true by lia.
  - intros Hc. unfold Stats.makeTotalStats. rewrite wrap32_id by done.
    replace (Stats.completions s <? g_threads) with true by lia. eauto.
  - apply Stats_makeOutputStats_not_Starved.
  - apply makeTotalStats_not_Starved.
Qed.

(** Two workers, interval 0 passed by one of them, nobody finished. *)
Lemma C8_reads_refuse_witness :
  let s := Stats.mk 2 0 "PUT" 0 0 1000000000
             [ThreadStats.makeThreadStats 0 0 "PUT" 1000000000;
              ThreadStats.makeThreadStats 0 0 "PUT" 1000000000]
             {[ 0 := 1 ]} 0 in
  Stats.makeOutputStats s 0 = Ok (OutputStats_zero, false) /\
  exists log, Stats.makeTotalStats 2 s = Ok (OutputStats_zero, false, log).
Proof.
  intros s.
  destruct (C8_reads_refuse 2 s 0) as (H1 & H2 & _);
    [unfold in_int32; simpl; lia | unfold in_int32; simpl; lia |].
  split.
  - apply H1. simpl. rewrite lookup_singleton_eq. lia.
  - apply H2. simpl. lia.
Defined.

(** ** Aggregation over all workers and intervals *)

Lemma cell_lookup (s : Stats.t) (th i : nat) ts c :
  Stats.threadStats s !! th = Some ts ->
  ThreadStats.intervals ts !! i = Some c ->
  Stats.cell s (Z.of_nat th) (Z.of_nat i) = Ok c.
Proof.
  intros Hts Hc. unfold Stats.cell.
  assert (index (Stats.threadStats s) (Z.of_nat th) = Ok ts) as ->.
  { apply index_Ok. rewrite Nat2Z.id. split; [|done].
    apply lookup_lt_Some in Hts. lia. }
  rewrite bind_Ok. apply index_Ok. rewrite Nat2Z.id. split; [|done].
  apply lookup_lt_Some in Hc. lia.
Qed.

Lemma lenIntervals_lookup (s : Stats.t) (th : nat) ts :
  Stats.threadStats s !! th = Some ts ->
  Stats.lenIntervals s (Z.of_nat th) = Ok (Z.of_nat (length (ThreadStats.intervals ts))).
Proof.
  intros Hts. unfold Stats.lenIntervals.
  assert (index (Stats.threadStats s) (Z.of_nat th) = Ok ts) as ->.
  { apply index_Ok. rewrite Nat2Z.id. split; [|done].
    apply lookup_lt_Some in Hts. lia. }
  reflexivity.
Qed.

Lemma foldl_concat {A B} (f : B -> A -> B) (ls : list (list A)) (b : B) :
  foldl f b (concat ls) = foldl (fun b l => foldl f b l) b ls.
Proof.
  revert b. induction ls as [|l ls IH]; intros b; simpl; [done|].
  by rewrite foldl_app, IH.
Qed.

(** The two nested loops of [makeTotalStats] visit every interval record of
    every worker, worker after worker. *)
Lemma nested_forRange {St} (s : Stats.t) (f : St -> IntervalStats.t -> St) (init : St) :
  Z.of_nat (length (Stats.threadStats s)) = Stats.threads s ->
  forRange 0 (Stats.threads s)
    (fun th a => n ← Stats.lenIntervals s th;
                 forRange 0 n (fun i a => c ← Stats.cell s th i; Ok (f a c)) a) init
  = Ok (foldl f init (allCells s)).
Proof.
  intros Hlen. rewrite <- Hlen. unfold allCells.
  rewrite foldl_concat, foldl_fmap.
  apply forRange_foldl. intros th ts a Hts.
  rewrite (lenIntervals_lookup s th ts Hts), bind_Ok.
  apply forRange_foldl. intros i c b Hc.
  by rewrite (cell_lookup s th i ts c Hts Hc).
Qed.

Lemma sumZ_app (l k : list Z) : sumZ (l ++ k) = sumZ l + sumZ k.
Proof. induction l; simpl; lia. Qed.

Lemma totalOver_allCells (f : IntervalStats.t -> Z) (s : Stats.t) :
  totalOver f s = sumZ (map f (allCells s)).
Proof.
  unfold totalOver, allCells.
  induction (Stats.threadStats s) as [|ts l IH]; simpl; [done|].
  rewrite map_app, sumZ_app, IH. reflexivity.
Qed.

Lemma foldl_addCell (cells : list IntervalStats.t) (b o sl : Z) :
  foldl (fun a c => Stats.addCell c a) (Stats.mkSums (wrap64 b) (wrap64 o) (wrap64 sl)) cells
  = Stats.mkSums (wrap64 (b + sumZ (map IntervalStats.bytes cells)))
                 (wrap64 (o + sumZ (map opsOf cells)))
                 (wrap64 (sl + sumZ (map IntervalStats.slowdowns cells))).
Proof.
  revert b o sl. induction cells as [|c cells IH]; intros b o sl; simpl.
  - by rewrite !Z.add_0_r.
  - unfold Stats.addCell at 2. simpl. rewrite !wrap64_add_l, IH.
    unfold opsOf. f_equal; f_equal; lia.
Qed.

Lemma foldl_copyInto (ops : Z) (cells : list IntervalStats.t) (filled : list Z) :
  Z.of_nat (length filled) + Z.of_nat (length (concat (map IntervalStats.latNano cells)))
    <= ops ->
  foldl (fun f c => Stats.copyInto ops (IntervalStats.latNano c) f) filled cells
  = filled ++ concat (map IntervalStats.latNano cells).
Proof.
  revert filled. induction cells as [|c cells IH]; intros filled H; simpl.
  - by rewrite app_nil_r.
  - simpl in H. rewrite length_app in H.
    assert (Stats.copyInto ops (IntervalStats.latNano c) filled
            = filled ++ IntervalStats.latNano c) as ->.
    { unfold Stats.copyInto. f_equal. apply take_ge. lia. }
    rewrite IH by (rewrite length_app; lia).
    by rewrite <- app_assoc.
Qed.

Lemma length_concat_sumZ (cells : list IntervalStats.t) :
  Z.of_nat (length (concat (map IntervalStats.latNano cells))) = sumZ (map opsOf cells).
Proof.
  induction cells as [|c cells IH]; simpl; [done|].
  rewrite length_app. unfold opsOf at 1. lia.
Qed.

Lemma buffer_full (ops : Z) (filled : list Z) :
  ops = Z.of_nat (length filled) -> Stats.buffer ops filled = filled.
Proof.
  intros ->. unfold Stats.buffer.
  replace (Z.to_nat _) with 0%nat by lia. simpl. by rewrite app_nil_r.
Qed.

(** What [makeTotalStats] hands to [IntervalStats.makeOutputStats]. *)
Lemma totalRecord_Ok (s : Stats.t) :
  Z.of_nat (length (Stats.threadStats s)) = Stats.threads s ->
  Z.of_nat (length (allSamples s)) < 2 ^ 63 ->
  Stats.totalRecord s =
  Ok (IntervalStats.mk (Stats.loop s) "TOTAL" (Stats.mode s)
        (wrap64 (totalOver IntervalStats.bytes s))
        (wrap64 (totalOver IntervalStats.slowdowns s))
        (wrap64 (Stats.endNano s - Stats.startNano s))
        (sortLat (allSamples s))).
Proof.
  intros Hlen Hfit. unfold Stats.totalRecord.
  rewrite (nested_forRange s (fun a c => Stats.addCell c a)) by done.
  rewrite bind_Ok.
  change (Stats.mkSums 0 0 0) with (Stats.mkSums (wrap64 0) (wrap64 0) (wrap64 0)).
  rewrite foldl_addCell. cbn [Stats.sOps Stats.sBytes Stats.sSlowdowns].
  rewrite !Z.add_0_l, <- !totalOver_allCells.
  assert (totalOver opsOf s = Z.of_nat (length (allSamples s))) as Hops.
  { rewrite totalOver_allCells. unfold allSamples. by rewrite length_concat_sumZ. }
  rewrite Hops, wrap64_id by (unfold in_int64; lia).
  replace (Z.of_nat (length (allSamples s)) <? 0) with false by lia.
  rewrite (nested_forRange s
             (fun f c => Stats.copyInto (Z.of_nat (length (allSamples s)))
                           (IntervalStats.latNano c) f)) by done.
  rewrite bind_Ok, foldl_copyInto by (unfold allSamples; simpl; lia).
  simpl. rewrite buffer_full by done. reflexivity.
Qed.

(** Summing interval by interval gives the same as summing worker by
    worker. *)
Lemma sumZ_lookup_seq (f : IntervalStats.t -> Z) (l : list IntervalStats.t) (n : nat) :
  (length l <= n)%nat ->
  sumZ (map (fun i => from_option f 0 (l !! i)) (seq 0 n)) = sumZ (map f l).
Proof.
  revert l. induction n as [|n IH]; intros l Hn.
  - destruct l; [done | simpl in Hn; lia].
  - destruct l as [|c l]; simpl.
    + clear. generalize 1%nat. induction n as [|n IH]; intros k; simpl; [done|].
      by rewrite IH.
    + rewrite <- (IH l) by (simpl in Hn; lia).
      by rewrite <- seq_shift, map_map.
Qed.

Lemma sumZ_map_add {A} (f g : A -> Z) (l : list A) :
  sumZ (map (fun x => f x + g x) l) = sumZ (map f l) + sumZ (map g l).
Proof. induction l; simpl; lia. Qed.

Lemma maxIntervals_ge (s : Stats.t) ts :
  ts ∈ Stats.threadStats s -> (length (ThreadStats.intervals ts) <= maxIntervals s)%nat.
Proof.
  unfold maxIntervals. induction (Stats.threadStats s) as [|t l IH]; intros H.
  - by apply elem_of_nil in H.
  - apply elem_of_cons in H as [-> | H]; simpl; [lia|]. specialize (IH H). lia.
Qed.

Lemma totalOver_by_interval (f : IntervalStats.t -> Z) (s : Stats.t) (n : nat) :
  (maxIntervals s <= n)%nat ->
  totalOver f s = sumZ (map (intervalOver f s) (seq 0 n)).
Proof.
  intros Hn. unfold totalOver, intervalOver.
  assert (forall ts, ts ∈ Stats.threadStats s ->
                     (length (ThreadStats.intervals ts) <= n)%nat) as Hall.
  { intros ts Hts. pose proof (maxIntervals_ge s ts Hts). lia. }
  clear Hn. induction (Stats.threadStats s) as [|ts l IH]; simpl.
  - clear. induction (seq 0 n); simpl; [done | lia].
  - rewrite sumZ_map_add, <- IH by (intros; apply Hall; set_solver).
    rewrite sumZ_lookup_seq by (apply Hall; set_solver). reflexivity.
Qed.

Lemma foldl_addCell_at (i : nat) (tss : list ThreadStats.t) (b o sl : Z) :
  foldl (fun a ts => match ThreadStats.intervals ts !! i with
                     | Some c => Stats.addCell c a
                     | None => a
                     end)
        (Stats.mkSums (wrap64 b) (wrap64 o) (wrap64 sl)) tss
  = Stats.mkSums
      (wrap64 (b + sumZ (map (fun ts => from_option IntervalStats.bytes 0
                                          (ThreadStats.intervals ts !! i)) tss)))
      (wrap64 (o + sumZ (map (fun ts => from_option opsOf 0
                                          (ThreadStats.intervals ts !! i)) tss)))
      (wrap64 (sl + sumZ (map (fun ts => from_option IntervalStats.slowdowns 0
                                           (ThreadStats.intervals ts !! i)) tss))).
Proof.
  revert b o sl. induction tss as [|ts tss IH]; intros b o sl; simpl.
  - by rewrite !Z.add_0_r.
  - destruct (ThreadStats.intervals ts !! i) as [c|]; simpl.
    + unfold Stats.addCell at 2. simpl. rewrite !wrap64_add_l, IH.
      unfold opsOf. f_equal; f_equal; lia.
    + rewrite IH. f_equal; f_equal; lia.
Qed.

Lemma foldl_copyInto_at (ops : Z) (i : nat) (tss : list ThreadStats.t) (filled : list Z) :
  Z.of_nat (length filled)
  + Z.of_nat (length (concat (map (fun ts => from_option IntervalStats.latNano []
                                               (ThreadStats.intervals ts !! i)) tss)))
    <= ops ->
  foldl (fun f ts => match ThreadStats.intervals ts !! i with
                     | Some c => Stats.copyInto ops (IntervalStats.latNano c) f
                     | None => f
                     end) filled tss
  = filled ++ concat (map (fun ts => from_option IntervalStats.latNano []
                                       (ThreadStats.intervals ts !! i)) tss).
Proof.
  revert filled. induction tss as [|ts tss IH]; intros filled H; simpl.
  - by rewrite app_nil_r.
  - simpl in H. rewrite length_app in H.
    destruct (ThreadStats.intervals ts !! i) as [c|]; simpl in *.
    + assert (Stats.copyInto ops (IntervalStats.latNano c) filled
              = filled ++ IntervalStats.latNano c) as ->.
      { unfold Stats.copyInto. f_equal. apply take_ge. lia. }
      rewrite IH by (rewrite length_app; lia).
      by rewrite <- app_assoc.
    + by rewrite IH by lia.
Qed.

Lemma length_intervalSamples (s : Stats.t) (i : nat) :
  Z.of_nat (length (intervalSamples s i)) = intervalOver opsOf s i.
Proof.
  unfold intervalSamples, intervalOver.
  induction (Stats.threadStats s) as [|ts l IH]; simpl; [done|].
  rewrite length_app, Nat2Z.inj_add, IH.
  destruct (ThreadStats.intervals ts !! i); simpl; unfold opsOf; lia.
Qed.

(** What [makeOutputStats(i)] hands to [IntervalStats.makeOutputStats] when
    every worker has an interval [i]. *)
Lemma intervalRecord_Ok (s : Stats.t) (i : nat) :
  Z.of_nat (length (Stats.threadStats s)) = Stats.threads s ->
  Forall (fun ts => (i < length (ThreadStats.intervals ts))%nat) (Stats.threadStats s) ->
  Z.of_nat (length (intervalSamples s i)) < 2 ^ 63 ->
  Stats.intervalRecord s (Z.of_nat i) =
  Ok (IntervalStats.mk (Stats.loop s) (FormatInt (Z.of_nat i)) (Stats.mode s)
        (wrap64 (intervalOver IntervalStats.bytes s i))
        (wrap64 (intervalOver IntervalStats.slowdowns s i))
        (Stats.intervalNano s)
        (sortLat (intervalSamples s i))).
Proof.
  intros Hlen Hall Hfit. unfold Stats.intervalRecord. rewrite <- Hlen.
  assert (forall (th : nat) ts, Stats.threadStats s !! th = Some ts ->
            exists c, ThreadStats.intervals ts !! i = Some c /\
                      Stats.cell s (Z.of_nat th) (Z.of_nat i) = Ok c) as Hcell.
  { intros th ts Hts.
    assert (i < length (ThreadStats.intervals ts))%nat as Hi.
    { rewrite Forall_forall in Hall. apply Hall. by eapply list_elem_of_lookup_2. }
    destruct (lookup_lt_is_Some_2 _ _ Hi) as [c Hc].
    exists c. split; [done|]. by eapply cell_lookup. }
  rewrite (forRange_foldl (Stats.threadStats s) _
             (fun a ts => match ThreadStats.intervals ts !! i with
                          | Some c => Stats.addCell c a
                          | None => a
                          end)).
  2: { intros th ts a Hts. destruct (Hcell th ts Hts) as (c & -> & ->). done. }
  rewrite bind_Ok.
  change (Stats.mkSums 0 0 0) with (Stats.mkSums (wrap64 0) (wrap64 0) (wrap64 0)).
  rewrite foldl_addCell_at. cbn [Stats.sOps Stats.sBytes Stats.sSlowdowns].
  rewrite !Z.add_0_l. fold (intervalOver IntervalStats.bytes s i).
  fold (intervalOver IntervalStats.slowdowns s i). fold (intervalOver opsOf s i).
  rewrite <- length_intervalSamples, wrap64_id by (unfold in_int64; lia).
  replace (Z.of_nat (length (intervalSamples s i)) <? 0) with false by lia.
  rewrite (forRange_foldl (Stats.threadStats s) _
             (fun f ts => match ThreadStats.intervals ts !! i with
                          | Some c => Stats.copyInto (Z.of_nat (length (intervalSamples s i)))
                                        (IntervalStats.latNano c) f
                          | None => f
                          end)).
  2: { intros th ts a Hts. destruct (Hcell th ts Hts) as (c & -> & ->). done. }
  rewrite bind_Ok, foldl_copyInto_at by (unfold intervalSamples; simpl; lia).
  simpl. fold (intervalSamples s i). rewrite buffer_full by done. reflexivity.
Qed.

(** C5: once every worker has finished, the TOTAL record is computed from
    the sum, over all workers and over every one of each worker's
    intervals, of the per-interval bytes, samples and slowdowns: its
    operation count and slowdown count are these sums, its throughput is
    the sum of the bytes over the elapsed time, and its samples are all the
    samples of all intervals. *)
Theorem C5_total_sums_every_interval (g_threads : Z) (s : Stats.t) :
  Z.of_nat (length (Stats.threadStats s)) = Stats.threads s ->
  wrap32 g_threads <= Stats.completions s ->
  in_int64 (totalOver IntervalStats.bytes s) ->
  in_int64 (totalOver IntervalStats.slowdowns s) ->
  totalOver opsOf s < 2 ^ 63 ->
  exists ivs o,
    Stats.totalRecord s = Ok ivs /\
    IntervalStats.makeOutputStats ivs = Ok o /\
    Stats.makeTotalStats g_threads s = Ok (o, true, []) /\
    IntervalName o = "TOTAL" /\
    IntervalStats.bytes ivs = totalOver IntervalStats.bytes s /\
    IntervalStats.latNano ivs ≡ₚ allSamples s /\
    Ops o = totalOver opsOf s /\
    Slowdowns o = totalOver IntervalStats.slowdowns s /\
    Mbps o = fdiv (fdiv (float64_of_int (totalOver IntervalStats.bytes s)) (Seconds o))
               (Fin 1048576) /\
    forall n, (maxIntervals s <= n)%nat ->
      IntervalStats.bytes ivs = sumZ (map (intervalOver IntervalStats.bytes s) (seq 0 n)) /\
      Ops o = sumZ (map (intervalOver opsOf s) (seq 0 n)) /\
      Slowdowns o = sumZ (map (intervalOver IntervalStats.slowdowns s) (seq 0 n)).
Proof.
  intros Hlen Hdone Hb Hsl Hops.
  assert (totalOver opsOf s = Z.of_nat (length (allSamples s))) as Hn.
  { rewrite totalOver_allCells. unfold allSamples. by rewrite length_concat_sumZ. }
  pose proof (totalRecord_Ok s Hlen ltac:(lia)) as Hrec.
  rewrite (wrap64_id _ Hb), (wrap64_id _ Hsl) in Hrec.
  destruct (makeOutputStats_Ok
              (IntervalStats.mk (Stats.loop s) "TOTAL" (Stats.mode s)
                 (totalOver IntervalStats.bytes s)
                 (totalOver IntervalStats.slowdowns s)
                 (wrap64 (Stats.endNano s - Stats.startNano s))
                 (sortLat (allSamples s)))) as (lf & _ & Ho).
  { simpl. rewrite sortLat_length. lia. }
  eexists _, _. split; [exact Hrec|]. split; [exact Ho|].
  split.
  { unfold Stats.makeTotalStats.
    replace (Stats.completions s <? wrap32 g_threads) with false by lia.
    rewrite Hrec, bind_Ok, Ho. reflexivity. }
  cbn [IntervalName IntervalStats.bytes IntervalStats.latNano Ops Slowdowns Mbps Seconds
       IntervalStats.name IntervalStats.slowdowns IntervalStats.intervalNano].
  split; [done|]. split; [done|]. split; [apply sortLat_Permutation|].
  split; [by rewrite sortLat_length, Hn|]. split; [done|]. split; [reflexivity|].
  intros n Hmax. rewrite sortLat_length, <- Hn.
  by rewrite <- !totalOver_by_interval.
Qed.


(** ** The ledger of one worker *)

Lemma append_Ok {A} (l : list A) (x : A) (l' : list A) :
  append l x = Ok l' -> l' = l ++ [x] /\ Z.of_nat (length l) + 1 < 2 ^ 63.
Proof.
  unfold append. destruct (Z.of_nat (length l) + 1 <? 2 ^ 63) eqn:E; [|done].
  intros [= <-]. split; [done | lia].
Qed.

Lemma advance_ledger clock : forall ts loop mode intervalNano ts',
  ThreadStats.advance clock ts loop mode intervalNano = Ok ts' ->
  ThreadStats.curInterval ts = Z.of_nat (length (ThreadStats.intervals ts)) - 1 ->
  Z.of_nat (length (ThreadStats.intervals ts)) < 2 ^ 63 ->
  ThreadStats.start ts' = ThreadStats.start ts /\
  ThreadStats.curInterval ts' = Z.of_nat (length (ThreadStats.intervals ts')) - 1 /\
  Z.of_nat (length (ThreadStats.intervals ts')) < 2 ^ 63 /\
  exists ext, ThreadStats.intervals ts' = ThreadStats.intervals ts ++ ext.
Proof.
  induction clock as [|now clock IH]; intros ts loop mode intervalNano ts' H Hcur Hlen;
    [done|]. simpl in H.
  destruct (_ <? now).
  - apply bind_Ok_inv in H as (ivs & Hivs & H).
    apply append_Ok in Hivs as [-> Hb].
    apply IH in H; simpl in *.
    + destruct H as (H1 & H2 & H3 & ext & H4).
      split; [done|]. split; [done|]. split; [done|].
      eexists. rewrite H4, <- app_assoc. reflexivity.
    + rewrite length_app. simpl. rewrite Hcur, wrap64_id by (unfold in_int64; lia). lia.
    + rewrite length_app. simpl. lia.
  - injection H as <-. split; [done|]. split; [done|]. split; [done|].
    exists []. by rewrite app_nil_r.
Qed.

Lemma updateIntervals_ledger clock ts loop mode intervalNano new ts' :
  ThreadStats.updateIntervals clock ts loop mode intervalNano = Ok (new, ts') ->
  ThreadStats.curInterval ts = Z.of_nat (length (ThreadStats.intervals ts)) - 1 ->
  Z.of_nat (length (ThreadStats.intervals ts)) < 2 ^ 63 ->
  new = ThreadStats.curInterval ts' /\
  ThreadStats.curInterval ts' = Z.of_nat (length (ThreadStats.intervals ts')) - 1 /\
  Z.of_nat (length (ThreadStats.intervals ts')) < 2 ^ 63 /\
  (exists ext, ThreadStats.intervals ts' = ThreadStats.intervals ts ++ ext) /\
  (intervalNano < 0 -> ts' = ts).
Proof.
  unfold ThreadStats.updateIntervals. intros H Hcur Hlen.
  destruct (intervalNano <? 0) eqn:E.
  - injection H as <- <-. split; [done|]. split; [done|]. split; [done|].
    split; [|done]. exists []. by rewrite app_nil_r.
  - apply bind_Ok_inv in H as (ts1 & H1 & [= <- <-]).
    apply advance_ledger in H1 as (? & ? & ? & ?); try done.
    split; [done|]. split; [done|]. split; [done|]. split; [done|]. lia.
Qed.

(** ** Votes *)

Lemma passed_nonneg v i : 0 <= passed v i.
Proof. unfold passed. lia. Qed.

Lemma passed_le_length v i : passed v i <= Z.of_nat (length v).
Proof. unfold passed. pose proof (length_filter (fun x => i < x) v). lia. Qed.

Lemma passed_cons x v i :
  passed (x :: v) i = (if decide (i < x) then 1 else 0) + passed v i.
Proof.
  unfold passed. rewrite filter_cons. destruct (decide (i < x)); simpl; lia.
Qed.

Lemma passed_insert v (t : nat) j i :
  v !! t = Some j ->
  passed (<[t := j + 1]> v) i = passed v i + (if decide (i = j) then 1 else 0).
Proof.
  revert t. induction v as [|x v IH]; intros t Ht; [done|].
  destruct t as [|t]; simpl in *.
  - injection Ht as ->. rewrite !passed_cons.
    repeat case_decide; lia.
  - rewrite !passed_cons, (IH t Ht). lia.
Qed.

Lemma passed_not_all v (t : nat) j :
  v !! t = Some j -> passed v j < Z.of_nat (length v).
Proof.
  revert t. induction v as [|x v IH]; intros t Ht; [done|].
  destruct t as [|t]; simpl in *.
  - injection Ht as ->. rewrite passed_cons. pose proof (passed_le_length v j).
    case_decide; lia.
  - rewrite passed_cons. specialize (IH t Ht). case_decide; lia.
Qed.

Lemma passed_snoc v x i : passed (v ++ [x]) i = passed v i + (if decide (i < x) then 1 else 0).
Proof.
  unfold passed. rewrite filter_app, length_app, filter_cons.
  destruct (decide (i < x)); simpl; lia.
Qed.

Lemma emissions_snoc i out o :
  emissions i (out ++ [o])
  = emissions i out + (if decide (IntervalName o = FormatInt i) then 1 else 0).
Proof.
  unfold emissions. rewrite filter_app, length_app, filter_cons.
  destruct (decide (IntervalName o = FormatInt i)); simpl; lia.
Qed.

Lemma FormatInt_inj i j : FormatInt i = FormatInt j -> i = j.
Proof. apply pretty_Z_inj. Qed.

(** The record an aggregation returns carries the label of its interval. *)
Lemma IntervalStats_makeOutputStats_name ivs o :
  IntervalStats.makeOutputStats ivs = Ok o -> IntervalName o = IntervalStats.name ivs.
Proof.
  unfold IntervalStats.makeOutputStats. intros H.
  apply bind_Ok_inv in H as (lf & _ & [= <-]). reflexivity.
Qed.

Lemma intervalRecord_name s i ivs :
  Stats.intervalRecord s i = Ok ivs -> IntervalStats.name ivs = FormatInt i.
Proof.
  unfold Stats.intervalRecord. intros H.
  apply bind_Ok_inv in H as (sums & _ & H).
  destruct (Stats.sOps sums <? 0); [done|].
  apply bind_Ok_inv in H as (filled & _ & [= <-]). reflexivity.
Qed.

Lemma Stats_makeOutputStats_ready s i count o ok :
  0 <= Stats.intervalNano s -> 0 <= i ->
  Stats.intervalCompletions s !! i = Some count ->
  wrap32 (Stats.threads s) <= count ->
  Stats.makeOutputStats s i = Ok (o, ok) ->
  ok = true /\ IntervalName o = FormatInt i.
Proof.
  intros Hn Hi Hc Hcount. unfold Stats.makeOutputStats.
  replace ((Stats.intervalNano s <? 0) || (i <? 0)) with false by lia.
  rewrite Hc. replace (count <? wrap32 (Stats.threads s)) with false by lia.
  intros H. apply bind_Ok_inv in H as (ivs & Hivs & H).
  apply bind_Ok_inv in H as (o' & Ho & [= <- <-]).
  split; [done|].
  rewrite (IntervalStats_makeOutputStats_name _ _ Ho).
  by apply intervalRecord_name in Hivs.
Qed.

(** ** The barrier *)

Lemma forRange_inv {St} (P : Z -> St -> Prop) (lo hi : Z)
    (body : Z -> St -> result St) (acc r : St) :
  lo <= hi ->
  P lo acc ->
  (forall j a a', lo <= j < hi -> P j a -> body j a = Ok a' -> P (j + 1) a') ->
  forRange lo hi body acc = Ok r ->
  P hi r.
Proof.
  intros Hle H0 Hstep.
  remember (Z.to_nat (hi - lo)) as n eqn:Hn.
  revert hi r Hle Hstep Hn. induction n as [|n IH]; intros hi r Hle Hstep Hn H.
  - assert (hi = lo) as -> by lia.
    rewrite forRange_empty in H by lia. by injection H as <-.
  - replace hi with ((hi - 1) + 1) in H by lia.
    rewrite forRange_last in H by lia.
    apply bind_Ok_inv in H as (a & Ha & Hb).
    replace hi with ((hi - 1) + 1) by lia.
    apply (Hstep (hi - 1) a r); [lia| |done].
    apply IH; [lia| |lia|done].
    intros j b b' Hj. apply Hstep. lia.
Qed.

Lemma ledger_ok_lookup s out v (t : nat) ts :
  barrier_inv s out v -> Stats.threadStats s !! t = Some ts ->
  exists x, v !! t = Some x /\ ledger_ok ts x.
Proof.
  intros [_ Hled _ _] Hts.
  destruct (Forall2_lookup_l _ _ _ _ _ Hled Hts) as (x & Hx & Hok). eauto.
Qed.

(** One vote: the counter of interval [j] goes up by one, and a record for
    [j] is logged when, and only when, the counter reaches the number of
    threads. *)
Lemma vote_preserves s out0 out v (t : nat) j ts s' out' :
  1 <= Stats.threads s < 2 ^ 31 ->
  0 <= Stats.intervalNano s ->
  0 <= j ->
  barrier_inv s (out0 ++ out) v ->
  v !! t = Some j ->
  Stats.threadStats s !! t = Some ts ->
  j + 1 <= Z.of_nat (length (ThreadStats.intervals ts)) - 1 ->
  Stats.vote j (s, out) = Ok (s', out') ->
  barrier_inv s' (out0 ++ out') (<[t := j + 1]> v) /\
  Stats.threadStats s' = Stats.threadStats s /\
  Stats.threads s' = Stats.threads s /\
  Stats.intervalNano s' = Stats.intervalNano s /\
  (passed v j + 1 = Stats.threads s ->
     exists o, out' = out ++ [o] /\ IntervalName o = FormatInt j) /\
  (passed v j + 1 <> Stats.threads s -> out' = out).
Proof.
  intros Hth Hn Hj Hinv Hv Hts Hnext Hvote.
  pose proof Hinv as [Hlen Hled Hcnt Hlog].
  pose proof (Forall2_length _ _ _ Hled) as Hlv.
  pose proof (passed_not_all v t j Hv) as Hlt.
  pose proof (passed_nonneg v j) as Hnn.
  assert (default 0 (Stats.intervalCompletions s !! j) = passed v j) as Hdef.
  { rewrite Hcnt. case_decide; simpl; lia. }
  unfold Stats.vote in Hvote. rewrite Hdef in Hvote.
  rewrite (wrap32_id (passed v j + 1)) in Hvote by (unfold in_int32; lia).
  rewrite (wrap32_id (Stats.threads s)) in Hvote by (unfold in_int32; lia).
  set (s1 := Stats.set_intervalCompletions s
               (<[j := passed v j + 1]> (Stats.intervalCompletions s))) in *.
  assert (Forall2 ledger_ok (Stats.threadStats s1) (<[t := j + 1]> v)) as Hled'.
  { simpl. rewrite <- (list_insert_id (Stats.threadStats s) t ts Hts).
    apply Forall2_insert; [done|].
    destruct (Forall2_lookup_lr _ _ _ _ _ _ Hled Hts Hv) as [H1 H2 H3].
    split; [done | lia | done]. }
  assert (forall i, Stats.intervalCompletions s1 !! i
                    = if decide (0 <= i /\ 0 < passed (<[t := j + 1]> v) i)
                      then Some (passed (<[t := j + 1]> v) i) else None) as Hcnt'.
  { intros i. simpl. rewrite (passed_insert v t j i Hv).
    destruct (decide (i = j)) as [->|Hne].
    - rewrite lookup_insert_eq. case_decide; [done | lia].
    - rewrite lookup_insert_ne by done. rewrite Z.add_0_r. apply Hcnt. }
  destruct (passed v j + 1 =? Stats.threads s) eqn:E.
  - apply Z.eqb_eq in E.
    apply bind_Ok_inv in Hvote as ([o ok] & Hmake & Hres).
    destruct (Stats_makeOutputStats_ready s1 j (passed v j + 1) o ok) as [-> Hname];
      [done | done | simpl; by rewrite lookup_insert_eq
       | simpl; rewrite wrap32_id by (unfold in_int32; lia); lia | done |].
    injection Hres as <- <-.
    split; [|split; [done|split; [done|split; [done|split]]]].
    + split; [done | done | done |].
      intros i Hi. rewrite app_assoc, emissions_snoc, (Hlog i Hi).
      rewrite (passed_insert v t j i Hv). rewrite Hname.
      change (Stats.threads s1) with (Stats.threads s).
      destruct (decide (i = j)) as [->|Hne].
      * destruct (decide (FormatInt j = FormatInt j)); [|done].
        repeat case_decide; lia.
      * destruct (decide (FormatInt j = FormatInt i)) as [Heq|_].
        { by apply FormatInt_inj in Heq. }
        rewrite !Z.add_0_r. done.
    + intros _. eauto.
    + intros Hne. lia.
  - apply Z.eqb_neq in E. injection Hvote as <- <-.
    split; [|split; [done|split; [done|split; [done|split]]]].
    + split; [done | done | done |].
      intros i Hi. rewrite (Hlog i Hi), (passed_insert v t j i Hv).
      change (Stats.threads s1) with (Stats.threads s).
      destruct (decide (i = j)) as [->|Hne].
      * repeat case_decide; lia.
      * by rewrite Z.add_0_r.
    + intros Heq. lia.
    + done.
Qed.

Lemma index_nat {A} (l : list A) (t : Z) (x : A) :
  index l t = Ok x -> exists n : nat, t = Z.of_nat n /\ l !! n = Some x.
Proof.
  intros H. apply index_Ok in H as [Ht Hx].
  exists (Z.to_nat t). split; [lia | done].
Qed.

Lemma votesOf_lookup s (n : nat) ts :
  Stats.threadStats s !! n = Some ts ->
  votesOf s !! n = Some (Z.of_nat (length (ThreadStats.intervals ts)) - 1).
Proof. intros H. unfold votesOf. by rewrite list_lookup_fmap, H. Qed.

(** A live worker's call of [updateIntervals] keeps the counters and the
    log in step with the ledgers. *)
Lemma Stats_updateIntervals_preserves s out t clock new s' o :
  1 <= Stats.threads s < 2 ^ 31 ->
  barrier_inv s out (votesOf s) ->
  live s t ->
  Stats.updateIntervals s t clock = Ok (new, s', o) ->
  barrier_inv s' (out ++ o) (votesOf s') /\
  Stats.threads s' = Stats.threads s /\
  length (Stats.threadStats s') = length (Stats.threadStats s) /\
  exists ts', index (Stats.threadStats s') t = Ok ts' /\
              ThreadStats.curInterval ts' = new /\ 0 <= new.
Proof.
  intros Hth Hinv (ts & Hidx & Hlive) H.
  unfold Stats.updateIntervals in H. rewrite Hidx, bind_Ok in H.
  apply bind_Ok_inv in H as ([new' ts'] & Hupd & H).
  replace (ThreadStats.curInterval ts <? 0) with false in H by lia.
  apply bind_Ok_inv in H as ([s2 out2] & Hloop & [= <- <- <-]).
  destruct (index_nat _ _ _ Hidx) as (n & -> & Hts).
  rewrite Nat2Z.id in Hloop.
  destruct (ledger_ok_lookup _ _ _ _ _ Hinv Hts) as (x & Hx & [Hl1 Hl2 Hl3]).
  rewrite (votesOf_lookup s n ts Hts) in Hx. injection Hx as <-.
  assert (ThreadStats.curInterval ts = Z.of_nat (length (ThreadStats.intervals ts)) - 1)
    as Hcur by lia.
  destruct (updateIntervals_ledger _ _ _ _ _ _ _ Hupd Hcur Hl1)
    as (Hnew & Hcur' & Hlen' & (ext & Hext) & Hneg).
  assert (length (ThreadStats.intervals ts) <= length (ThreadStats.intervals ts'))%nat
    as Hgrow by (rewrite Hext, length_app; lia).
  set (s1 := Stats.set_threadStats s (<[n := ts']> (Stats.threadStats s))) in *.
  assert (n < length (Stats.threadStats s))%nat as Hn by (by eapply lookup_lt_Some).
  assert (barrier_inv s1 out (votesOf s)) as Hinv1.
  { destruct Hinv as [H1 H2 H3 H4]. split; simpl; [by rewrite length_insert| |done|done].
    rewrite <- (list_insert_id (votesOf s) n _ (votesOf_lookup s n ts Hts)).
    apply Forall2_insert; [done|]. split; [done | lia | by left]. }
  assert (votesOf s = <[n := ThreadStats.curInterval ts]> (votesOf s)) as Hv0.
  { rewrite Hcur. symmetry. apply list_insert_id. by apply votesOf_lookup. }
  pose proof (forRange_inv
    (fun j (a : Stats.t * list OutputStats) =>
       barrier_inv a.1 (out ++ a.2) (<[n := j]> (votesOf s)) /\
       Stats.threadStats a.1 = Stats.threadStats s1 /\
       Stats.threads a.1 = Stats.threads s /\
       Stats.intervalNano a.1 = Stats.intervalNano s)
    (ThreadStats.curInterval ts) new' Stats.vote (s1, []) (s2, out2)) as Hfr.
  destruct Hfr as (Hinv2 & Hts2 & Hth2 & _); [lia | | | done |].
  { simpl. rewrite app_nil_r, <- Hv0. done. }
  { intros j [sj oj] [sj' oj'] Hj (Hi & Hsame & Hthj & Hnj) Hvote. simpl in *.
    assert (0 <= Stats.intervalNano s) as Hpos.
    { destruct (Z.lt_ge_cases (Stats.intervalNano s) 0) as [Hlt|]; [|done].
      specialize (Hneg Hlt). subst ts'. lia. }
    assert (n < length (votesOf s))%nat as Hnv by (unfold votesOf; by rewrite length_map).
    destruct (vote_preserves sj out oj (<[n := j]> (votesOf s)) n j ts' sj' oj')
      as (Hi' & Hsame' & Hth' & Hn' & _); try done; try lia.
    - by rewrite list_lookup_insert_eq.
    - rewrite Hsame. simpl. by rewrite list_lookup_insert_eq.
    - rewrite list_insert_insert_eq in Hi'.
      split; [done|]. split; [congruence|]. split; congruence. }
  simpl in *.
  assert (votesOf s2 = <[n := new']> (votesOf s)) as ->.
  { unfold votesOf. rewrite Hts2. simpl. rewrite list_fmap_insert. f_equal. lia. }
  split; [done|]. split; [done|]. split; [by rewrite Hts2; simpl; rewrite length_insert|].
  exists ts'. split; [|lia]. rewrite Hts2. simpl.
  apply index_Ok. rewrite Nat2Z.id, length_insert. split; [lia|].
  by rewrite list_lookup_insert_eq.
Qed.

(** Replacing a ledger by one with as many intervals changes nothing for
    the barrier. *)
Lemma votesOf_replace s (n : nat) ts ts' s' :
  Stats.threadStats s !! n = Some ts ->
  length (ThreadStats.intervals ts') = length (ThreadStats.intervals ts) ->
  Stats.threadStats s' = <[n := ts']> (Stats.threadStats s) ->
  votesOf s' = votesOf s.
Proof.
  intros Hts Hlen Hts'. unfold votesOf. rewrite Hts', list_fmap_insert, Hlen.
  apply list_insert_id. by rewrite list_lookup_fmap, Hts.
Qed.

Lemma barrier_inv_replace_votes s out v (n : nat) ts ts' s' :
  barrier_inv s out v ->
  Stats.threadStats s !! n = Some ts ->
  length (ThreadStats.intervals ts') = length (ThreadStats.intervals ts) ->
  ThreadStats.curInterval ts' = ThreadStats.curInterval ts \/
  ThreadStats.curInterval ts' = -1 ->
  Stats.threadStats s' = <[n := ts']> (Stats.threadStats s) ->
  Stats.threads s' = Stats.threads s ->
  Stats.intervalCompletions s' = Stats.intervalCompletions s ->
  barrier_inv s' out v.
Proof.
  intros Hinv Hts Hlen Hcur Hts' Hth Hic.
  destruct (ledger_ok_lookup _ _ _ _ _ Hinv Hts) as (x & Hx & [Hl1 Hl2 Hl3]).
  destruct Hinv as [H1 H2 H3 H4].
  split.
  - by rewrite Hts', length_insert, Hth.
  - rewrite Hts', <- (list_insert_id v n x Hx).
    apply Forall2_insert; [done|].
    split; rewrite ?Hlen; [done | done |].
    destruct Hcur as [-> | ->]; [done | by right].
  - intros i. rewrite Hic. apply H3.
  - intros i Hi. rewrite Hth. by apply H4.
Qed.

Lemma barrier_inv_replace s out (n : nat) ts ts' s' :
  barrier_inv s out (votesOf s) ->
  Stats.threadStats s !! n = Some ts ->
  length (ThreadStats.intervals ts') = length (ThreadStats.intervals ts) ->
  ThreadStats.curInterval ts' = ThreadStats.curInterval ts \/
  ThreadStats.curInterval ts' = -1 ->
  Stats.threadStats s' = <[n := ts']> (Stats.threadStats s) ->
  Stats.threads s' = Stats.threads s ->
  Stats.intervalCompletions s' = Stats.intervalCompletions s ->
  barrier_inv s' out (votesOf s').
Proof.
  intros Hinv Hts Hlen Hcur Hts' Hth Hic.
  rewrite (votesOf_replace s n ts ts' s' Hts Hlen Hts').
  by eapply barrier_inv_replace_votes.
Qed.

(** What [addOp] and [addSlowDown] change: one ledger, for one with as
    many intervals and the same current interval. *)
Lemma addOp_spec s t b l s' :
  Stats.addOp s t b l = Ok s' ->
  s' = s \/
  exists (n : nat) ts ts', t = Z.of_nat n /\ Stats.threadStats s !! n = Some ts /\
    length (ThreadStats.intervals ts') = length (ThreadStats.intervals ts) /\
    ThreadStats.curInterval ts' = ThreadStats.curInterval ts /\
    Stats.threadStats s' = <[n := ts']> (Stats.threadStats s) /\
    Stats.threads s' = Stats.threads s /\
    Stats.intervalNano s' = Stats.intervalNano s /\
    Stats.intervalCompletions s' = Stats.intervalCompletions s.
Proof.
  intros H. unfold Stats.addOp in H.
  apply bind_Ok_inv in H as (ts & Hidx & H).
  destruct (ThreadStats.curInterval ts <? 0); [left; by injection H as <-|].
  apply bind_Ok_inv in H as (c & Hc & H).
  apply bind_Ok_inv in H as (lat & Hlat & [= <-]).
  destruct (index_nat _ _ _ Hidx) as (n & -> & Hts). rewrite Nat2Z.id.
  right. eexists n, ts, (ThreadStats.mk _ _ _).
  split; [done|]. split; [done|]. split; [simpl; by rewrite length_insert|].
  split; [done|]. split; [reflexivity|]. done.
Qed.

Lemma addSlowDown_spec s t s' :
  Stats.addSlowDown s t = Ok s' ->
  exists (n : nat) ts ts', t = Z.of_nat n /\ Stats.threadStats s !! n = Some ts /\
    length (ThreadStats.intervals ts') = length (ThreadStats.intervals ts) /\
    ThreadStats.curInterval ts' = ThreadStats.curInterval ts /\
    Stats.threadStats s' = <[n := ts']> (Stats.threadStats s) /\
    Stats.threads s' = Stats.threads s /\
    Stats.intervalNano s' = Stats.intervalNano s /\
    Stats.intervalCompletions s' = Stats.intervalCompletions s.
Proof.
  intros H. unfold Stats.addSlowDown in H.
  apply bind_Ok_inv in H as (ts & Hidx & H).
  apply bind_Ok_inv in H as (c & Hc & [= <-]).
  destruct (index_nat _ _ _ Hidx) as (n & -> & Hts). rewrite Nat2Z.id.
  eexists n, ts, (ThreadStats.mk _ _ _).
  split; [done|]. split; [done|]. split; [simpl; by rewrite length_insert|].
  split; [done|]. split; [reflexivity|]. done.
Qed.

Lemma addOp_preserves s out t b l s' :
  barrier_inv s out (votesOf s) ->
  Stats.addOp s t b l = Ok s' ->
  barrier_inv s' out (votesOf s') /\ Stats.threads s' = Stats.threads s.
Proof.
  intros Hinv H.
  apply addOp_spec in H as [->|(n & ts & ts' & _ & Hts & Hlen & Hcur & Hts' & Hth & _ & Hic)];
    [done|].
  split; [|done].
  by eapply (barrier_inv_replace s out n ts ts');
    [done | done | done | left | done | done | done].
Qed.

Lemma addSlowDown_preserves s out t s' :
  barrier_inv s out (votesOf s) ->
  Stats.addSlowDown s t = Ok s' ->
  barrier_inv s' out (votesOf s') /\ Stats.threads s' = Stats.threads s.
Proof.
  intros Hinv H.
  apply addSlowDown_spec in H as (n & ts & ts' & _ & Hts & Hlen & Hcur & Hts' & Hth & _ & Hic).
  split; [|done].
  by eapply (barrier_inv_replace s out n ts ts');
    [done | done | done | left | done | done | done].
Qed.

Lemma markFinished_spec s t now s' :
  Stats.markFinished s t now = Ok s' ->
  exists (n : nat) ts, t = Z.of_nat n /\ Stats.threadStats s !! n = Some ts /\
    Stats.threadStats s' = <[n := ThreadStats.finish ts]> (Stats.threadStats s) /\
    Stats.threads s' = Stats.threads s /\
    Stats.intervalNano s' = Stats.intervalNano s /\
    Stats.intervalCompletions s' = Stats.intervalCompletions s.
Proof.
  unfold Stats.markFinished. intros H.
  apply bind_Ok_inv in H as (ts & Hidx & H).
  destruct (index_nat _ _ _ Hidx) as (n & -> & Hts). rewrite Nat2Z.id in H.
  exists n, ts. split; [done|]. split; [done|].
  destruct (_ =? _); by injection H as <-.
Qed.

Lemma markFinished_preserves s out t now s' :
  barrier_inv s out (votesOf s) ->
  Stats.markFinished s t now = Ok s' ->
  barrier_inv s' out (votesOf s') /\ Stats.threads s' = Stats.threads s /\
  length (Stats.threadStats s') = length (Stats.threadStats s) /\
  exists ts', index (Stats.threadStats s') t = Ok ts' /\ ThreadStats.curInterval ts' = -1.
Proof.
  intros Hinv H.
  apply markFinished_spec in H as (n & ts & -> & Hts & Hts' & Hth & _ & Hic).
  assert (n < length (Stats.threadStats s))%nat as Hn by (by eapply lookup_lt_Some).
  split; [|split; [done|split]].
  - by eapply (barrier_inv_replace s _ n ts (ThreadStats.finish ts));
      [done | done | done | right | done | done | done].
  - by rewrite Hts', length_insert.
  - exists (ThreadStats.finish ts). split; [|done].
    apply index_Ok. rewrite Nat2Z.id, Hts', length_insert. split; [lia|].
    by rewrite list_lookup_insert_eq.
Qed.

Lemma finish_preserves s out t clock now s' o :
  1 <= Stats.threads s < 2 ^ 31 ->
  barrier_inv s out (votesOf s) ->
  live s t ->
  Stats.finish s t clock now = Ok (s', o) ->
  barrier_inv s' (out ++ o) (votesOf s') /\ Stats.threads s' = Stats.threads s /\
  exists ts', index (Stats.threadStats s') t = Ok ts' /\ ThreadStats.curInterval ts' = -1.
Proof.
  intros Hth Hinv Hlive H. unfold Stats.finish in H.
  apply bind_Ok_inv in H as ([[new s1] out1] & Hupd & H).
  apply bind_Ok_inv in H as (s2 & Hmark & [= <- <-]).
  destruct (Stats_updateIntervals_preserves _ _ _ _ _ _ _ Hth Hinv Hlive Hupd)
    as (Hinv1 & Hth1 & Hlen1 & _).
  destruct (markFinished_preserves _ _ _ _ _ Hinv1 Hmark) as (? & ? & _ & ?).
  split; [done|]. split; [congruence | done].
Qed.

(** The ledgers [makeStats] returns. *)
Lemma makeStats_inv loop mode threads intervalNano now clocks s out :
  1 <= threads < 2 ^ 31 ->
  Stats.makeStats loop mode threads intervalNano now clocks = Ok (s, out) ->
  barrier_inv s out (votesOf s) /\ Stats.threads s = threads /\
  Z.of_nat (length (Stats.threadStats s)) = threads.
Proof.
  intros Hth H. unfold Stats.makeStats in H.
  refine (forRange_inv
    (fun i (a : Stats.t * list OutputStats) =>
       barrier_inv a.1 a.2 (votesOf a.1) /\ Stats.threads a.1 = threads /\
       Z.of_nat (length (Stats.threadStats a.1)) = i)
    0 threads _ _ (s, out) _ _ _ H); [lia | |]; clear H.
  - simpl. split; [|done]. split; simpl; [lia | constructor | |].
    + intros i. rewrite lookup_empty. unfold passed. simpl. case_decide; [lia | done].
    + intros i Hi. unfold emissions, passed. simpl. case_decide; [lia | done].
  - intros i [s0 out0] [s1 out1] Hi (Hinv & Hthr & Hlen) Hbody. simpl in *.
    apply bind_Ok_inv in Hbody as (tss & Happ & Hbody).
    apply bind_Ok_inv in Hbody as ([[new s2] out2] & Hupd & [= <- <-]).
    apply append_Ok in Happ as [-> _].
    set (ts0 := ThreadStats.makeThreadStats now (Stats.loop s0) (Stats.mode s0)
                  (Stats.intervalNano s0)) in *.
    set (sa := Stats.set_threadStats s0 (Stats.threadStats s0 ++ [ts0])) in *.
    assert (votesOf sa = votesOf s0 ++ [0]) as Hv.
    { unfold votesOf. simpl. by rewrite map_app. }
    assert (barrier_inv sa out0 (votesOf sa)) as Hinva.
    { destruct Hinv as [H1 H2 H3 H4]. rewrite Hv. split; simpl.
      - rewrite length_app. simpl. lia.
      - apply Forall2_app; [done|]. constructor; [|constructor].
        split; simpl; [lia | lia | by left].
      - intros j. rewrite passed_snoc, H3.
        repeat case_decide; try done; try lia; f_equal; lia.
      - intros j Hj. rewrite passed_snoc, (H4 j Hj).
        rewrite (decide_False (P := j < 0)) by lia. by rewrite Z.add_0_r. }
    assert (live sa i) as Hlive.
    { exists ts0. split; [|simpl; lia].
      apply index_Ok. simpl. rewrite length_app. simpl. split; [lia|].
      rewrite lookup_app_r by lia.
      replace (Z.to_nat i - length (Stats.threadStats s0))%nat with 0%nat by lia. done. }
    destruct (Stats_updateIntervals_preserves sa out0 i _ _ _ _ ltac:(simpl; lia)
                Hinva Hlive Hupd) as (Hinv2 & Hth2 & Hlen2 & _).
    split; [done|]. split; [by rewrite Hth2|].
    rewrite Hlen2. simpl. rewrite length_app. simpl. lia.
Qed.

Lemma perform_preserves c s out s' out' :
  1 <= Stats.threads s < 2 ^ 31 ->
  barrier_inv s out (votesOf s) ->
  live s (thread_of c) ->
  perform c (s, out) = Ok (s', out') ->
  barrier_inv s' out' (votesOf s') /\ Stats.threads s' = Stats.threads s.
Proof.
  intros Hth Hinv Hlive H. destruct c as [t clock|t b l|t|t clock now]; simpl in *.
  - apply bind_Ok_inv in H as ([[new s1] o] & Hupd & [= <- <-]).
    by destruct (Stats_updateIntervals_preserves _ _ _ _ _ _ _ Hth Hinv Hlive Hupd)
      as (? & ? & _).
  - apply bind_Ok_inv in H as (s1 & Hop & [= <- <-]). by eapply addOp_preserves.
  - apply bind_Ok_inv in H as (s1 & Hop & [= <- <-]). by eapply addSlowDown_preserves.
  - apply bind_Ok_inv in H as ([s1 o] & Hfin & [= <- <-]).
    by destruct (finish_preserves _ _ _ _ _ _ _ Hth Hinv Hlive Hfin) as (? & ? & _).
Qed.

(** ** Reachable states *)

Lemma vote_frame j s out s' out' :
  Stats.vote j (s, out) = Ok (s', out') ->
  Stats.threadStats s' = Stats.threadStats s /\ Stats.threads s' = Stats.threads s.
Proof.
  unfold Stats.vote. destruct (_ =? _).
  - intros H. apply bind_Ok_inv in H as ([o ok] & _ & [= <- _]). done.
  - by intros [= <- _].
Qed.

Lemma Stats_updateIntervals_frame s t clock new s' o :
  Stats.updateIntervals s t clock = Ok (new, s', o) ->
  Stats.threads s' = Stats.threads s /\
  length (Stats.threadStats s') = length (Stats.threadStats s).
Proof.
  unfold Stats.updateIntervals. intros H.
  apply bind_Ok_inv in H as (ts & _ & H).
  apply bind_Ok_inv in H as ([new' ts'] & _ & H).
  destruct (ThreadStats.curInterval ts <? 0).
  { injection H as _ <- _. simpl. by rewrite length_insert. }
  apply bind_Ok_inv in H as ([s2 out2] & Hloop & [= _ <- _]).
  destruct (Z.le_gt_cases (ThreadStats.curInterval ts) new') as [Hle|Hgt].
  - refine (forRange_inv
      (fun _ (a : Stats.t * list OutputStats) =>
         Stats.threads a.1 = Stats.threads s /\
         length (Stats.threadStats a.1) = length (Stats.threadStats s))
      _ _ _ _ (s2, out2) Hle _ _ Hloop).
    + simpl. by rewrite length_insert.
    + intros j [sj oj] [sj' oj'] _ [H1 H2] Hv. simpl in *.
      apply vote_frame in Hv as [-> ->]. done.
  - rewrite forRange_empty in Hloop by lia. injection Hloop as <- _.
    simpl. by rewrite length_insert.
Qed.

Lemma perform_frame c s out s' out' :
  perform c (s, out) = Ok (s', out') ->
  Stats.threads s' = Stats.threads s /\
  length (Stats.threadStats s') = length (Stats.threadStats s).
Proof.
  intros H. destruct c as [t clock|t b l|t|t clock now]; simpl in H.
  - apply bind_Ok_inv in H as ([[new s1] o] & Hupd & [= <- _]).
    by eapply Stats_updateIntervals_frame.
  - apply bind_Ok_inv in H as (s1 & Hop & [= <- _]).
    unfold Stats.addOp in Hop.
    apply bind_Ok_inv in Hop as (ts & _ & Hop).
    destruct (_ <? 0); [by injection Hop as <-|].
    apply bind_Ok_inv in Hop as (c & _ & Hop).
    apply bind_Ok_inv in Hop as (lat & _ & [= <-]).
    simpl. by rewrite length_insert.
  - apply bind_Ok_inv in H as (s1 & Hop & [= <- _]).
    unfold Stats.addSlowDown in Hop.
    apply bind_Ok_inv in Hop as (ts & _ & Hop).
    apply bind_Ok_inv in Hop as (c & _ & [= <-]).
    simpl. by rewrite length_insert.
  - apply bind_Ok_inv in H as ([s1 o] & Hfin & [= <- _]).
    unfold Stats.finish in Hfin.
    apply bind_Ok_inv in Hfin as ([[new s2] out2] & Hupd & Hfin).
    apply bind_Ok_inv in Hfin as (s3 & Hmark & [= <- _]).
    apply Stats_updateIntervals_frame in Hupd as [<- <-].
    apply markFinished_spec in Hmark as (n & ts & _ & _ & -> & -> & _).
    by rewrite length_insert.
Qed.

Lemma makeStats_threads loop mode threads intervalNano now clocks s out :
  Stats.makeStats loop mode threads intervalNano now clocks = Ok (s, out) ->
  Stats.threads s = threads.
Proof.
  unfold Stats.makeStats. intros H.
  destruct (Z.le_gt_cases 0 threads) as [Hle|Hgt].
  - refine (forRange_inv
      (fun _ (a : Stats.t * list OutputStats) => Stats.threads a.1 = threads)
      _ _ _ _ (s, out) Hle _ _ H); [done|].
    intros j [sj oj] [sj' oj'] _ Hj Hb. simpl in *.
    apply bind_Ok_inv in Hb as (tss & _ & Hb).
    apply bind_Ok_inv in Hb as ([[new s2] out2] & Hupd & [= <- _]).
    by apply Stats_updateIntervals_frame in Hupd as [-> _].
  - rewrite forRange_empty in H by lia. by injection H as <- _.
Qed.

(** In every state of a phase the counters and the log agree with the
    ledgers, and there are as many ledgers as threads. *)
Lemma reachable_inv s out :
  reachable s out ->
  1 <= Stats.threads s < 2 ^ 31 ->
  barrier_inv s out (votesOf s) /\
  Z.of_nat (length (Stats.threadStats s)) = Stats.threads s.
Proof.
  induction 1 as [loop mode threads intervalNano now clocks s out Hmake
                 |s out c s' out' Hreach IH Hlive Hperform]; intros Hth.
  - pose proof (makeStats_threads _ _ _ _ _ _ _ _ Hmake) as Heq.
    rewrite Heq in Hth.
    destruct (makeStats_inv _ _ _ _ _ _ _ _ Hth Hmake) as (? & ? & ?).
    split; [done | congruence].
  - destruct (perform_frame _ _ _ _ _ Hperform) as [Heq Hlen].
    rewrite Heq in Hth. destruct (IH Hth) as [Hinv Hl].
    destruct (perform_preserves _ _ _ _ _ Hth Hinv Hlive Hperform) as [? ?].
    split; [done|]. rewrite Hlen, Heq. done.
Qed.

(** Between two calls the increments that have arrived for interval [i]
    are those of the workers whose ledgers have gone past [i]. *)
Lemma passed_votesOf s i : passed (votesOf s) i = advancedPast s i.
Proof.
  unfold passed, votesOf, advancedPast. f_equal.
  induction (Stats.threadStats s) as [|ts l IH]; [done|].
  simpl. rewrite !filter_cons.
  destruct (decide (i < Z.of_nat (length (ThreadStats.intervals ts)) - 1));
    destruct (decide (i + 1 < Z.of_nat (length (ThreadStats.intervals ts))));
    simpl; lia.
Qed.

(** ** The barrier under interleaved atomic steps *)

(** In every state of the interleaved phase the counters and the log agree
    with the increments that have arrived; a phase without interval
    reporting has no increment pending. *)
Lemma interleaved_inv s out v :
  interleaved s out v ->
  1 <= Stats.threads s < 2 ^ 31 ->
  barrier_inv s out v /\ (Stats.intervalNano s < 0 -> v = votesOf s).
Proof.
  induction 1 as
    [loop mode threads intervalNano now clocks s out Hmake
    |s out v t ts clock new ts' Hil IH Hts Hv Hupd
    |s out v t ts j s' o Hil IH Hts Hv Hj Hvote
    |s out v t ts b l s' Hil IH Hts Hv Hop
    |s out v t ts s' Hil IH Hts Hv Hop
    |s out v t ts now s' Hil IH Hts Hv Hop]; intros Hth.
  - pose proof (makeStats_threads _ _ _ _ _ _ _ _ Hmake) as Heq.
    rewrite Heq in Hth.
    destruct (makeStats_inv _ _ _ _ _ _ _ _ Hth Hmake) as (? & _ & _). done.
  - destruct (IH Hth) as [Hinv Hnp].
    destruct (ledger_ok_lookup _ _ _ _ _ Hinv Hts) as (x & Hx & [Hl1 Hl2 Hl3]).
    rewrite Hv in Hx. injection Hx as <-.
    assert (ThreadStats.curInterval ts = Z.of_nat (length (ThreadStats.intervals ts)) - 1)
      as Hcur by lia.
    destruct (updateIntervals_ledger _ _ _ _ _ _ _ Hupd Hcur Hl1)
      as (Hnew & Hcur' & Hlen' & (ext & Hext) & Hneg).
    assert (length (ThreadStats.intervals ts) <= length (ThreadStats.intervals ts'))%nat
      as Hgrow by (rewrite Hext, length_app; lia).
    split.
    + destruct Hinv as [H1 H2 H3 H4]. split; simpl; [by rewrite length_insert| |done|done].
      rewrite <- (list_insert_id v t _ Hv).
      apply Forall2_insert; [done|]. split; [done | lia | by left].
    + simpl. intros Hlt. rewrite (Hneg Hlt), (Hnp Hlt). unfold votesOf. simpl.
      by rewrite list_insert_id.
  - destruct (vote_frame _ _ _ _ _ Hvote) as [Hsame Hthr]. rewrite Hthr in Hth.
    destruct (IH Hth) as [Hinv Hnp].
    destruct (ledger_ok_lookup _ _ _ _ _ Hinv Hts) as (x & Hx & [Hl1 Hl2 Hl3]).
    rewrite Hv in Hx. injection Hx as <-.
    assert (0 <= Stats.intervalNano s) as Hpos.
    { destruct (Z.lt_ge_cases (Stats.intervalNano s) 0) as [Hlt|]; [|done].
      specialize (Hnp Hlt). rewrite Hnp, (votesOf_lookup s t ts Hts) in Hv.
      injection Hv as Hv. lia. }
    destruct (vote_preserves s out [] v t j ts s' o) as (Hinv' & _ & _ & Hn' & _);
      try done; try lia.
    { by rewrite app_nil_r. }
    split; [done|]. lia.
  - apply addOp_spec in Hop
      as [->|(n & ts0 & ts1 & _ & Hts0 & Hlen & Hcur & Hts' & Hthr & Hn & Hic)];
      [by apply IH|].
    rewrite Hthr in Hth. destruct (IH Hth) as [Hinv Hnp]. split.
    + by eapply (barrier_inv_replace_votes s out v n ts0 ts1);
        [done | done | done | left | done | done | done].
    + rewrite Hn. intros Hlt. rewrite (Hnp Hlt). symmetry. by eapply votesOf_replace.
  - apply addSlowDown_spec in Hop
      as (n & ts0 & ts1 & _ & Hts0 & Hlen & Hcur & Hts' & Hthr & Hn & Hic).
    rewrite Hthr in Hth. destruct (IH Hth) as [Hinv Hnp]. split.
    + by eapply (barrier_inv_replace_votes s out v n ts0 ts1);
        [done | done | done | left | done | done | done].
    + rewrite Hn. intros Hlt. rewrite (Hnp Hlt). symmetry. by eapply votesOf_replace.
  - apply markFinished_spec in Hop as (n & ts0 & _ & Hts0 & Hts' & Hthr & Hn & Hic).
    rewrite Hthr in Hth. destruct (IH Hth) as [Hinv Hnp]. split.
    + by eapply (barrier_inv_replace_votes s out v n ts0 (ThreadStats.finish ts0));
        [done | done | done | right | done | done | done].
    + rewrite Hn. intros Hlt. rewrite (Hnp Hlt). symmetry.
      by eapply (votesOf_replace s n ts0 (ThreadStats.finish ts0)).
Qed.

Lemma filter_all_length {A} (P : A -> Prop) `{!forall x, Decision (P x)} (l : list A) :
  length (filter P l) = length l -> Forall P l.
Proof.
  induction l as [|x l IH]; [constructor|]. rewrite filter_cons.
  destruct (decide (P x)); simpl; intros Hl.
  - constructor; [done|]. apply IH. lia.
  - pose proof (length_filter P l). lia.
Qed.

(** The increment that completes an interval finds the interval's record in
    every ledger: the aggregation it runs does not leave a ledger. *)
Lemma vote_returns s out v (t : nat) ts j :
  interleaved s out v ->
  1 <= Stats.threads s < 2 ^ 31 ->
  Stats.threadStats s !! t = Some ts ->
  v !! t = Some j ->
  j < ThreadStats.curInterval ts ->
  Z.of_nat (length (intervalSamples s (Z.to_nat j))) < 2 ^ 63 ->
  exists s' o, Stats.vote j (s, []) = Ok (s', o).
Proof.
  intros Hil Hth Hts Hv Hj Hfit.
  destruct (interleaved_inv s out v Hil Hth) as [Hinv Hnp].
  pose proof Hinv as [Hlen Hled Hcnt Hlog].
  destruct (ledger_ok_lookup _ _ _ _ _ Hinv Hts) as (x & Hx & [Hl1 Hl2 Hl3]).
  rewrite Hv in Hx. injection Hx as <-.
  pose proof (Forall2_length _ _ _ Hled) as Hlv.
  pose proof (passed_not_all v t j Hv) as Hlt.
  pose proof (passed_nonneg v j) as Hnn.
  assert (0 <= Stats.intervalNano s) as Hpos.
  { destruct (Z.lt_ge_cases (Stats.intervalNano s) 0) as [Hneg|]; [|done].
    specialize (Hnp Hneg). rewrite Hnp, (votesOf_lookup s t ts Hts) in Hv.
    injection Hv as Hv. lia. }
  assert (default 0 (Stats.intervalCompletions s !! j) = passed v j) as Hdef.
  { rewrite Hcnt. case_decide; simpl; lia. }
  unfold Stats.vote. rewrite Hdef.
  rewrite (wrap32_id (passed v j + 1)) by (unfold in_int32; lia).
  rewrite (wrap32_id (Stats.threads s)) by (unfold in_int32; lia).
  destruct (passed v j + 1 =? Stats.threads s) eqn:E; [|eauto].
  apply Z.eqb_eq in E.
  set (s1 := Stats.set_intervalCompletions s
               (<[j := passed v j + 1]> (Stats.intervalCompletions s))).
  assert (Forall (fun x => j < x) (<[t := j + 1]> v)) as Hall.
  { apply (filter_all_length (fun x => j < x)).
    pose proof (passed_insert v t j j Hv) as Hp.
    rewrite decide_True in Hp by done. rewrite length_insert.
    unfold passed in Hp, E, Hlt. lia. }
  assert (Stats.intervalRecord s1 j
          = Ok (IntervalStats.mk (Stats.loop s) (FormatInt j) (Stats.mode s)
                  (wrap64 (intervalOver IntervalStats.bytes s (Z.to_nat j)))
                  (wrap64 (intervalOver IntervalStats.slowdowns s (Z.to_nat j)))
                  (Stats.intervalNano s)
                  (sortLat (intervalSamples s (Z.to_nat j))))) as Hrec.
  { replace j with (Z.of_nat (Z.to_nat j)) at 1 2 by lia.
    apply (intervalRecord_Ok s1 (Z.to_nat j)); [simpl; lia| |done].
    simpl. apply Forall_forall. intros ts' Hin.
    apply list_elem_of_lookup in Hin as [n Hn].
    destruct (Forall2_lookup_l _ _ _ _ _ Hled Hn) as (y & Hy & [Hy1 Hy2 Hy3]).
    destruct (decide (n = t)) as [->|Hne].
    - rewrite Hts in Hn. injection Hn as <-. lia.
    - assert (j < y); [|lia].
      rewrite Forall_forall in Hall. apply Hall.
      apply list_elem_of_lookup. exists n. by rewrite list_lookup_insert_ne. }
  destruct (makeOutputStats_Ok
              (IntervalStats.mk (Stats.loop s) (FormatInt j) (Stats.mode s)
                 (wrap64 (intervalOver IntervalStats.bytes s (Z.to_nat j)))
                 (wrap64 (intervalOver IntervalStats.slowdowns s (Z.to_nat j)))
                 (Stats.intervalNano s)
                 (sortLat (intervalSamples s (Z.to_nat j)))))
    as (lf & _ & Ho); [simpl; by rewrite sortLat_length|].
  unfold Stats.makeOutputStats. fold s1.
  replace ((Stats.intervalNano s1 <? 0) || (j <? 0)) with false by (simpl; lia).
  replace (Stats.intervalCompletions s1 !! j) with (Some (passed v j + 1))
    by (simpl; by rewrite lookup_insert_eq).
  rewrite (wrap32_id (Stats.threads s1)) by (unfold in_int32; simpl; lia).
  replace (passed v j + 1 <? Stats.threads s1) with false by (simpl; lia).
  rewrite Hrec, bind_Ok, Ho. simpl. eauto.
Qed.

Lemma vote_out j s out s' out' :
  Stats.vote j (s, out) = Ok (s', out') ->
  exists o, Stats.vote j (s, []) = Ok (s', o) /\ out' = out ++ o.
Proof.
  unfold Stats.vote. destruct (_ =? _).
  - intros H. apply bind_Ok_inv in H as ([o ok] & -> & [= <- <-]).
    rewrite bind_Ok. destruct ok; eexists; (split; [reflexivity|]); simpl; [done|].
    by rewrite app_nil_r.
  - intros [= <- <-]. eexists. split; [reflexivity|]. by rewrite app_nil_r.
Qed.

(** A call of [updateIntervals] by a live worker is an advance of its
    ledger followed by its increments. *)
Lemma Stats_updateIntervals_interleaved s out t clock new s' o :
  1 <= Stats.threads s < 2 ^ 31 ->
  barrier_inv s out (votesOf s) ->
  interleaved s out (votesOf s) ->
  live s t ->
  Stats.updateIntervals s t clock = Ok (new, s', o) ->
  interleaved s' (out ++ o) (votesOf s').
Proof.
  intros Hth Hinv Hil (ts & Hidx & Hlive) H.
  unfold Stats.updateIntervals in H. rewrite Hidx, bind_Ok in H.
  apply bind_Ok_inv in H as ([new' ts'] & Hupd & H).
  replace (ThreadStats.curInterval ts <? 0) with false in H by lia.
  apply bind_Ok_inv in H as ([s2 out2] & Hloop & [= <- <- <-]).
  destruct (index_nat _ _ _ Hidx) as (n & -> & Hts).
  rewrite Nat2Z.id in Hloop.
  destruct (ledger_ok_lookup _ _ _ _ _ Hinv Hts) as (x & Hx & [Hl1 Hl2 Hl3]).
  rewrite (votesOf_lookup s n ts Hts) in Hx. injection Hx as <-.
  assert (ThreadStats.curInterval ts = Z.of_nat (length (ThreadStats.intervals ts)) - 1)
    as Hcur by lia.
  destruct (updateIntervals_ledger _ _ _ _ _ _ _ Hupd Hcur Hl1)
    as (Hnew & Hcur' & Hlen' & (ext & Hext) & Hneg).
  assert (length (ThreadStats.intervals ts) <= length (ThreadStats.intervals ts'))%nat
    as Hgrow by (rewrite Hext, length_app; lia).
  assert (n < length (Stats.threadStats s))%nat as Hn by (by eapply lookup_lt_Some).
  assert (votesOf s !! n = Some (ThreadStats.curInterval ts)) as Hvn
    by (rewrite Hcur; by apply votesOf_lookup).
  set (s1 := Stats.set_threadStats s (<[n := ts']> (Stats.threadStats s))) in *.
  assert (interleaved s1 out (votesOf s)) as Hil1 by (by eapply il_advance).
  pose proof (forRange_inv
    (fun j (a : Stats.t * list OutputStats) =>
       interleaved a.1 (out ++ a.2) (<[n := j]> (votesOf s)) /\
       Stats.threadStats a.1 = Stats.threadStats s1)
    (ThreadStats.curInterval ts) new' Stats.vote (s1, []) (s2, out2)) as Hfr.
  destruct Hfr as (Hil2 & Hts2); [lia | | | done |].
  { simpl. rewrite app_nil_r, list_insert_id by done. done. }
  { intros j [sj oj] [sj' oj'] Hj (Hi & Hsame) Hvote. simpl in *.
    destruct (vote_out _ _ _ _ _ Hvote) as (o' & Hvote' & ->).
    destruct (vote_frame _ _ _ _ _ Hvote) as [Hsame' _].
    split; [|congruence].
    rewrite app_assoc, <- (list_insert_insert_eq (votesOf s) n (j + 1) j).
    eapply (il_vote sj (out ++ oj) _ n ts'); [done | | | lia | done].
    - rewrite Hsame. simpl. by rewrite list_lookup_insert_eq.
    - rewrite list_lookup_insert_eq; [done|]. unfold votesOf. by rewrite length_map. }
  simpl in *.
  assert (votesOf s2 = <[n := new']> (votesOf s)) as ->; [|done].
  unfold votesOf. rewrite Hts2. simpl. rewrite list_fmap_insert. f_equal. lia.
Qed.

(** The phases whose calls are atomic are among the interleaved ones. *)
Lemma reachable_interleaved s out :
  reachable s out ->
  1 <= Stats.threads s < 2 ^ 31 ->
  interleaved s out (votesOf s).
Proof.
  induction 1 as [loop mode threads intervalNano now clocks s out Hmake
                 |s out c s' out' Hreach IH Hlive Hperform]; intros Hth.
  - by eapply il_makeStats.
  - destruct (perform_frame _ _ _ _ _ Hperform) as [Heq Hlen].
    rewrite Heq in Hth. specialize (IH Hth).
    destruct (reachable_inv s out Hreach Hth) as [Hinv _].
    assert (forall (n : nat) ts, thread_of c = Z.of_nat n ->
              Stats.threadStats s !! n = Some ts ->
              votesOf s !! n = Some (ThreadStats.curInterval ts)) as Hcur.
    { intros n ts Hc Hts. destruct Hlive as (ts0 & Hidx & Hpos).
      rewrite Hc in Hidx. apply index_Ok in Hidx as [_ Hts0].
      rewrite Nat2Z.id, Hts in Hts0. injection Hts0 as <-.
      destruct (ledger_ok_lookup _ _ _ _ _ Hinv Hts) as (x & Hx & [Hl1 Hl2 Hl3]).
      rewrite (votesOf_lookup s n ts Hts) in Hx. injection Hx as <-.
      rewrite (votesOf_lookup s n ts Hts). f_equal. lia. }
    destruct c as [t clock|t b l|t|t clock now]; simpl in *.
    + apply bind_Ok_inv in Hperform as ([[new s1] o] & Hupd & [= <- <-]).
      by eapply Stats_updateIntervals_interleaved.
    + apply bind_Ok_inv in Hperform as (s1 & Hop & [= <- <-]).
      pose proof Hop as Hsp.
      apply addOp_spec in Hsp as [->|(n & ts & ts' & -> & Hts & Hl & _ & Hts' & _)];
        [done|].
      rewrite (votesOf_replace s n ts ts' s1 Hts Hl Hts').
      eapply il_addOp; [done | done | by apply Hcur | done].
    + apply bind_Ok_inv in Hperform as (s1 & Hop & [= <- <-]).
      pose proof Hop as Hsp.
      apply addSlowDown_spec in Hsp as (n & ts & ts' & -> & Hts & Hl & _ & Hts' & _).
      rewrite (votesOf_replace s n ts ts' s1 Hts Hl Hts').
      eapply il_addSlowDown; [done | done | by apply Hcur | done].
    + apply bind_Ok_inv in Hperform as ([s2 o] & Hfin & [= <- <-]).
      unfold Stats.finish in Hfin.
      apply bind_Ok_inv in Hfin as ([[new s1] out1] & Hupd & Hfin).
      apply bind_Ok_inv in Hfin as (s3 & Hmark & [= <- <-]).
      pose proof (Stats_updateIntervals_interleaved _ _ _ _ _ _ _ Hth Hinv IH Hlive Hupd)
        as Hil1.
      destruct (Stats_updateIntervals_preserves _ _ _ _ _ _ _ Hth Hinv Hlive Hupd)
        as (Hinv1 & Hth1 & _ & ts1 & Hidx1 & Hc1 & Hpos1).
      pose proof Hmark as Hsp.
      apply markFinished_spec in Hsp as (n & ts & -> & Hts & Hts' & _).
      rewrite (votesOf_replace s1 n ts (ThreadStats.finish ts) s3 Hts eq_refl Hts').
      eapply il_markFinished; [done | done | | done].
      apply index_Ok in Hidx1 as [_ Hts1]. rewrite Nat2Z.id, Hts in Hts1.
      injection Hts1 as <-.
      destruct (ledger_ok_lookup _ _ _ _ _ Hinv1 Hts) as (x & Hx & [Hl1 Hl2 Hl3]).
      rewrite (votesOf_lookup s1 n ts Hts) in Hx. injection Hx as <-.
      rewrite (votesOf_lookup s1 n ts Hts). f_equal. lia.
Qed.


(** Closed arithmetic facts about a computed state. *)
Ltac by_computation :=
  vm_compute; repeat split; first [reflexivity | discriminate].

Lemma liveb_live s t : liveb s t = true -> live s t.
Proof.
  unfold liveb, live. destruct (index _ _) as [ts| |]; [|done|done].
  intros H. exists ts. split; [done | lia].
Qed.

Lemma runCalls_reachable calls : forall s out s' out',
  reachable s out ->
  followsProtocol calls (s, out) = true ->
  runCalls calls (s, out) = Ok (s', out') ->
  reachable s' out'.
Proof.
  induction calls as [|c calls IH]; intros s out s' out' Hreach Hp Hrun; simpl in *.
  - by injection Hrun as <- <-.
  - apply andb_true_iff in Hp as [Hlive Hp].
    apply bind_Ok_inv in Hrun as ([s1 out1] & Hperf & Hrun).
    rewrite Hperf in Hp.
    apply (IH s1 out1); [|done|done].
    eapply reach_call; [done | by apply liveb_live | done].
Qed.

Lemma demo_reachable :
  match demo_run with Ok (s, out) => reachable s out | _ => False end.
Proof.
  unfold demo_run.
  destruct (Stats.makeStats 0 "PUT" 2 10 0 [[5]; [5]]) as [[s0 out0]| |] eqn:E0;
    [|vm_compute in E0; discriminate..].
  rewrite bind_Ok.
  destruct (runCalls demo_calls (s0, out0)) as [[s out]| |] eqn:E1;
    [|vm_compute in E0; injection E0 as <- <-; vm_compute in E1; discriminate..].
  apply (runCalls_reachable demo_calls s0 out0); [by eapply reach_makeStats| |done].
  vm_compute in E0. injection E0 as <- <-. vm_compute. reflexivity.
Qed.


(** ** Recording on a ledger *)

Lemma record_after_finish s t ts :
  index (Stats.threadStats s) t = Ok ts ->
  ThreadStats.curInterval ts < 0 ->
  index (ThreadStats.intervals ts) (ThreadStats.curInterval ts) = Panic /\
  Stats.addSlowDown s t = Panic /\
  forall b l, Stats.addOp s t b l = Ok s.
Proof.
  intros Hidx Hcur.
  assert (index (ThreadStats.intervals ts) (ThreadStats.curInterval ts) = Panic) as Hp
    by (apply index_out_of_range; lia).
  split; [done|]. split.
  - unfold Stats.addSlowDown. by rewrite Hidx, bind_Ok, Hp.
  - intros b l. unfold Stats.addOp. rewrite Hidx, bind_Ok.
    by replace (ThreadStats.curInterval ts <? 0) with true by lia.
Qed.



(** The TOTAL record of the demonstration phase, both workers finished:
    three operations of 4096 bytes. *)
Lemma C5_total_sums_every_interval_witness :
  match demo_done with
  | Ok (s, out) =>
      exists o, Stats.makeTotalStats 2 s = Ok (o, true, []) /\ Ops o = 3 /\
                totalOver IntervalStats.bytes s = 12288
  | _ => False
  end.
Proof.
  destruct demo_done as [[s out]| |] eqn:E; [|vm_compute in E; discriminate..].
  vm_compute in E. injection E as <- <-.
  match goal with
  | |- context [Stats.makeTotalStats 2 ?s] =>
      destruct (C5_total_sums_every_interval 2 s)
        as (ivs & o & _ & _ & Htot & _ & _ & _ & Hops & _);
        [reflexivity | by_computation | by_computation | by_computation
         | by_computation |]
  end.
  exists o. split; [exact Htot|]. split; [exact Hops | reflexivity].
Defined.

(** ** The worker loops *)

Lemma Ok_inj {A} (a b : A) : Ok a = Ok b -> a = b.
Proof. by intros [= ->]. Qed.

Lemma endOfPass_spec sh op s out rq errcnt sh' errcnt' brk :
  endOfPass sh op s out rq errcnt = (sh', errcnt', brk) ->
  requests sh' = requests sh ++ [rq] /\ op_counter sh' = op /\ errcnt' = errcnt /\
  brk = (if 2 <? errcnt then Some TooManyErrors else None).
Proof. unfold endOfPass. by intros [= <- <- <-]. Qed.

Ltac pass_cases H :=
  repeat match type of H with
  | (if ?b then _ else _) = Ok _ => destruct b eqn:?
  | (_ ≫= _) = Ok _ =>
      let x := fresh "x" in let Hx := fresh "Hx" in
      apply bind_Ok_inv in H as (x & Hx & H)
  | (let '(_, _) := ?p in _) = Ok _ => destruct p
  end.

Lemma runUpload_pass_outcome g t e sh errcnt sh' errcnt' brk :
  runUpload_pass g t e sh errcnt = Ok (sh', errcnt', brk) ->
  pass_outcome t e sh errcnt sh' errcnt' brk.
Proof.
  unfold runUpload_pass. intros H. pass_cases H.
  - injection H as <- <- <-. by constructor.
  - injection H as <- <- <-. by constructor.
  - apply Ok_inj, endOfPass_spec in H as (? & ? & -> & ->).
    eapply pass_sent; [done | done | done |]. by rewrite Heqb1.
  - apply Ok_inj, endOfPass_spec in H as (? & ? & -> & ->).
    eapply pass_sent; [done | done | done |]. by rewrite Heqb1.
Qed.

Lemma runDownload_pass_outcome g t e sh errcnt sh' errcnt' brk :
  runDownload_pass g t e sh errcnt = Ok (sh', errcnt', brk) ->
  pass_outcome t e sh errcnt sh' errcnt' brk.
Proof.
  unfold runDownload_pass. intros H.
  destruct ((-1 <? Globals.duration_secs g) && (Globals.endtime g <? ev_now e)).
  { injection H as <- <- <-. by constructor. }
  apply bind_Ok_inv in H as (objnum & _ & H).
  pass_cases H.
  - injection H as <- <- <-. by constructor.
  - apply Ok_inj, endOfPass_spec in H as (? & ? & -> & ->).
    eapply pass_sent; [done | done | done |]. by rewrite Heqb0.
  - apply Ok_inj, endOfPass_spec in H as (? & ? & -> & ->).
    eapply pass_sent; [done | done | done |]. by rewrite Heqb0.
Qed.

Lemma runDelete_pass_outcome g t e sh errcnt sh' errcnt' brk :
  runDelete_pass g t e sh errcnt = Ok (sh', errcnt', brk) ->
  pass_outcome t e sh errcnt sh' errcnt' brk.
Proof.
  unfold runDelete_pass. intros H. pass_cases H.
  - injection H as <- <- <-. by constructor.
  - injection H as <- <- <-. by constructor.
  - apply Ok_inj, endOfPass_spec in H as (? & ? & -> & ->).
    eapply pass_sent; [done | done | done |]. by rewrite Heqb1.
  - apply Ok_inj, endOfPass_spec in H as (? & ? & -> & ->).
    eapply pass_sent; [done | done | done |]. by rewrite Heqb1.
Qed.

Lemma passOf_outcome r g t e sh errcnt sh' errcnt' brk :
  passOf r g t e sh errcnt = Ok (sh', errcnt', brk) ->
  pass_outcome t e sh errcnt sh' errcnt' brk.
Proof.
  unfold passOf. destruct (Ascii.eqb r "p"); [apply runUpload_pass_outcome|].
  destruct (Ascii.eqb r "g"); [apply runDownload_pass_outcome|].
  apply runDelete_pass_outcome.
Qed.

Lemma workerExit_frame t clock now sh sh' :
  workerExit t clock now sh = Ok sh' ->
  requests sh' = requests sh /\ op_counter sh' = op_counter sh.
Proof.
  unfold workerExit. intros H.
  apply bind_Ok_inv in H as ([s out] & _ & [= <-]). done.
Qed.


Lemma failuresOf_snoc t rs rq :
  failuresOf t (rs ++ [rq])
  = failuresOf t rs + (if decide (rq_thread rq = t /\ rq_err rq = true) then 1 else 0).
Proof.
  unfold failuresOf. rewrite filter_app, length_app, filter_cons.
  destruct (decide (rq_thread rq = t /\ rq_err rq = true)); simpl; lia.
Qed.

(** A turn keeps every worker's error count equal to the number of its
    failed requests. *)
Lemma turn_worker_inv r g tn sh ws sh' ws' rs0 :
  turn r g tn (sh, ws) = Ok (sh', ws') ->
  (forall t wk, ws !! t = Some wk -> worker_inv rs0 (requests sh) t wk) ->
  forall t wk, ws' !! t = Some wk -> worker_inv rs0 (requests sh') t wk.
Proof.
  intros H Hinv. unfold turn in H.
  apply bind_Ok_inv in H as (wk0 & Hidx & H).
  destruct (index_nat _ _ _ Hidx) as (n & Hn & Hwk0).
  destruct (exited wk0) as [x|] eqn:Hex.
  { injection H as <- <-. done. }
  apply bind_Ok_inv in H as ([[sh1 errcnt'] brk] & Hpass & H).
  apply passOf_outcome in Hpass.
  assert (requests sh' = requests sh1 /\
          ws' = <[n := mkWorker errcnt' brk]> ws) as (Hrq & ->).
  { rewrite Hn, Nat2Z.id in H. destruct brk as [x|].
    - apply bind_Ok_inv in H as (sh2 & Hexit & [= <- <-]).
      apply workerExit_frame in Hexit as [? ?]. done.
    - injection H as <- <-. done. }
  rewrite Hrq. clear H Hrq sh'.
  destruct (Hinv n wk0 Hwk0) as [Hcnt Hst].
  rewrite Hex in Hst. destruct Hst as [[? _]|[_ Hrange]]; [done|].
  intros t wk Hwk. destruct (decide (t = n)) as [->|Hne].
  - rewrite list_lookup_insert_eq in Hwk by (by eapply lookup_lt_Some).
    injection Hwk as <-. unfold worker_inv. simpl.
    inversion Hpass as [Hr Hop He|Hr He|rq Hr Ht Herr He Hb]; subst.
    + rewrite Hr. split; [done|]. right. split; [done | lia].
    + rewrite Hr. split; [done|]. right. split; [done | lia].
    + rewrite Hr, failuresOf_snoc.
      destruct (ev_err (tn_env tn)) eqn:Ee.
      * destruct (decide _) as [_|Hnot]; [|destruct Hnot; split; congruence].
        rewrite wrap64_id by (unfold in_int64; lia).
        split; [lia|].
        destruct (2 <? errcnt wk0 + 1) eqn:E2; [left | right]; split; try done; lia.
      * destruct (decide _) as [[_ Habs]|_]; [congruence|].
        split; [lia|]. replace (2 <? errcnt wk0) with false by lia.
        right. split; [done | lia].
  - rewrite list_lookup_insert_ne in Hwk by done.
    destruct (Hinv t wk Hwk) as [Hc Hs]. split; [|done].
    inversion Hpass as [Hr Hop He|Hr He|rq Hr Ht Herr He Hb]; subst;
      rewrite Hr; [done | done |].
    rewrite failuresOf_snoc.
    destruct (decide _) as [[Heq _]|_]; [|lia].
    rewrite Ht in Heq. lia.
Qed.

Lemma runTurns_worker_inv r g sched : forall sh ws sh' ws' rs0,
  runTurns r g sched (sh, ws) = Ok (sh', ws') ->
  (forall t wk, ws !! t = Some wk -> worker_inv rs0 (requests sh) t wk) ->
  forall t wk, ws' !! t = Some wk -> worker_inv rs0 (requests sh') t wk.
Proof.
  induction sched as [|tn sched IH]; intros sh ws sh' ws' rs0 H Hinv; simpl in H.
  - by injection H as <- <-.
  - apply bind_Ok_inv in H as ([sh1 ws1] & Hturn & H).
    eapply IH; [done|]. by eapply turn_worker_inv.
Qed.

(** C3, as the code has it: under any schedule of the workers of an object
    phase, a worker's error count is the number of its requests that have
    failed since the phase began, whether or not successes came between
    them; the worker has left its loop for too many errors exactly when
    that number is three, a threshold written into the loop. *)
Theorem C3_error_limit_counts_all_failures (r : ascii) (g : Globals.t)
    (sched : list Turn) (n : nat) (sh sh' : Shared) (ws' : list Worker)
    (t : nat) (wk : Worker) :
  runTurns r g sched (sh, replicate n (mkWorker 0 None)) = Ok (sh', ws') ->
  ws' !! t = Some wk ->
  errcnt wk = failuresOf (Z.of_nat t) (requests sh')
              - failuresOf (Z.of_nat t) (requests sh) /\
  0 <= errcnt wk <= 3 /\
  (exited wk = Some TooManyErrors <-> errcnt wk = 3).
Proof.
  intros Hrun Hwk.
  destruct (runTurns_worker_inv r g sched sh _ sh' ws' (requests sh) Hrun) with t wk
    as [Hc Hs]; [|done|].
  { intros t0 wk0 Hl. apply lookup_replicate in Hl as [-> _].
    split; simpl; [lia|]. right. split; [done | lia]. }
  split; [done|]. destruct Hs as [[? ?]|[? ?]]; (split; [lia|]); split; try done; lia.
Qed.

(** The schedule of three failures separated by successes. *)
Lemma C3_error_limit_counts_all_failures_witness :
  match demo_flaky_run with
  | Ok (sh, ws) =>
      exists wk, ws !! 0%nat = Some wk /\ errcnt wk = 3 /\
                 exited wk = Some TooManyErrors
  | _ => False
  end.
Proof.
  unfold demo_flaky_run.
  destruct (Stats.makeStats 0 "PUT" 1 100000000000 0 [[1]]) as [[s out]| |] eqn:E0;
    [|vm_compute in E0; discriminate..].
  rewrite bind_Ok.
  destruct (runTurns _ _ _ _) as [[sh ws]| |] eqn:E;
    [|vm_compute in E0; injection E0 as <- <-; vm_compute in E; discriminate..].
  assert (exists wk, ws !! 0%nat = Some wk /\ exited wk = Some TooManyErrors)
    as (wk & Hwk & Hex).
  { vm_compute in E0. injection E0 as <- <-. vm_compute in E. injection E as <- <-.
    eexists. split; reflexivity. }
  exists wk. split; [done|]. split; [|done].
  by apply (C3_error_limit_counts_all_failures _ _ _ _ _ _ _ _ _ E Hwk).
Defined.

(** C3 as the specification words it fails: the worker of this schedule
    leaves its loop for too many errors although no two of its failures
    were consecutive. *)
Lemma C3_consecutive_failures_counterexample :
  match demo_flaky_run with
  | Ok (sh, ws) =>
      map exited ws = [Some TooManyErrors] /\
      map rq_err (requests sh) = [true; false; true; false; true] /\
      longestFailureRun 0 0 (map rq_err (requests sh)) = 1%nat
  | _ => False
  end.
Proof. vm_compute. repeat split. Qed.

(** ** The object count after a put phase *)

Lemma successes_snoc rs rq :
  successes (rs ++ [rq]) = successes rs + (if rq_err rq then 0 else 1).
Proof.
  unfold successes. rewrite filter_app, length_app, filter_cons.
  destruct (rq_err rq); simpl; [|lia].
  destruct (decide (true = false)); [done | simpl; lia].
Qed.

Lemma wrap64_sub_l a b : wrap64 (wrap64 a - b) = wrap64 (a - b).
Proof. replace (wrap64 a - b) with (wrap64 a + - b) by lia.
       rewrite wrap64_add_l. f_equal; lia. Qed.

(** With no object count set, a pass of [runUpload] leaves the shared
    counter one below the number of requests that succeeded. *)
Lemma runUpload_pass_counter g t e sh errcnt sh' errcnt' brk :
  Globals.object_count g < 0 ->
  runUpload_pass g t e sh errcnt = Ok (sh', errcnt', brk) ->
  op_counter sh = wrap64 (successes (requests sh) - 1) ->
  op_counter sh' = wrap64 (successes (requests sh') - 1).
Proof.
  intros Hoc H Hop. unfold runUpload_pass in H.
  replace (-1 <? Globals.object_count g) with false in H by lia. simpl in H.
  pass_cases H.
  - by injection H as <- _ _.
  - apply Ok_inj, endOfPass_spec in H as (-> & -> & _).
    rewrite successes_snoc. simpl. rewrite Z.add_0_r, Hop.
    rewrite wrap64_add_l, wrap64_sub_l. f_equal. lia.
  - apply Ok_inj, endOfPass_spec in H as (-> & -> & _).
    rewrite successes_snoc. simpl. rewrite Hop, wrap64_add_l. f_equal. lia.
Qed.

Lemma runTurns_put_counter g sched : forall sh ws sh' ws',
  Globals.object_count g < 0 ->
  runTurns "p" g sched (sh, ws) = Ok (sh', ws') ->
  op_counter sh = wrap64 (successes (requests sh) - 1) ->
  op_counter sh' = wrap64 (successes (requests sh') - 1).
Proof.
  induction sched as [|tn sched IH]; intros sh ws sh' ws' Hoc H Hop; simpl in H.
  - by injection H as <- _.
  - apply bind_Ok_inv in H as ([sh1 ws1] & Hturn & H).
    apply (IH sh1 ws1 sh' ws' Hoc H). clear H IH.
    unfold turn in Hturn.
    apply bind_Ok_inv in Hturn as (wk & _ & Hturn).
    destruct (exited wk); [by injection Hturn as <- _|].
    apply bind_Ok_inv in Hturn as ([[sh2 errcnt'] brk] & Hpass & Hturn).
    change (passOf "p") with runUpload_pass in Hpass.
    pose proof (runUpload_pass_counter _ _ _ _ _ _ _ _ Hoc Hpass Hop) as Hop2.
    destruct brk.
    + apply bind_Ok_inv in Hturn as (sh3 & Hexit & [= <- _]).
      apply workerExit_frame in Hexit as [-> ->]. done.
    + by injection Hturn as <- _.
Qed.

(** With an object count set, a pass of [runDownload] or [runDelete] sends
    no request for an object number at or above the count. *)
Lemma runDownload_pass_bound g t e sh errcnt sh' errcnt' brk :
  0 <= Globals.object_count g ->
  runDownload_pass g t e sh errcnt = Ok (sh', errcnt', brk) ->
  Forall (fun rq => rq_objnum rq < Globals.object_count g) (requests sh) ->
  Forall (fun rq => rq_objnum rq < Globals.object_count g) (requests sh').
Proof.
  intros Hoc H Hall. unfold runDownload_pass in H.
  destruct ((-1 <? Globals.duration_secs g) && (Globals.endtime g <? ev_now e)).
  { by injection H as <- _ _. }
  apply bind_Ok_inv in H as (objnum & _ & H).
  replace (-1 <? Globals.object_count g) with true in H by lia. simpl in H.
  pass_cases H.
  - by injection H as <- _ _.
  - apply Ok_inj, endOfPass_spec in H as (-> & _).
    apply Forall_app. split; [done|]. constructor; [simpl; lia | constructor].
  - apply Ok_inj, endOfPass_spec in H as (-> & _).
    apply Forall_app. split; [done|]. constructor; [simpl; lia | constructor].
Qed.

Lemma runDelete_pass_bound g t e sh errcnt sh' errcnt' brk :
  0 <= Globals.object_count g ->
  runDelete_pass g t e sh errcnt = Ok (sh', errcnt', brk) ->
  Forall (fun rq => rq_objnum rq < Globals.object_count g) (requests sh) ->
  Forall (fun rq => rq_objnum rq < Globals.object_count g) (requests sh').
Proof.
  intros Hoc H Hall. unfold runDelete_pass in H.
  replace (-1 <? Globals.object_count g) with true in H by lia. simpl in H.
  pass_cases H.
  - by injection H as <- _ _.
  - by injection H as <- _ _.
  - apply Ok_inj, endOfPass_spec in H as (-> & _).
    apply Forall_app. split; [done|]. constructor; [simpl; lia | constructor].
  - apply Ok_inj, endOfPass_spec in H as (-> & _).
    apply Forall_app. split; [done|]. constructor; [simpl; lia | constructor].
Qed.

Lemma runTurns_bound r g sched : forall sh ws sh' ws',
  r = "g"%char \/ r = "d"%char ->
  0 <= Globals.object_count g ->
  runTurns r g sched (sh, ws) = Ok (sh', ws') ->
  Forall (fun rq => rq_objnum rq < Globals.object_count g) (requests sh) ->
  Forall (fun rq => rq_objnum rq < Globals.object_count g) (requests sh').
Proof.
  induction sched as [|tn sched IH]; intros sh ws sh' ws' Hr Hoc H Hall; simpl in H.
  - by injection H as <- _.
  - apply bind_Ok_inv in H as ([sh1 ws1] & Hturn & H).
    apply (IH sh1 ws1 sh' ws' Hr Hoc H). clear H IH.
    unfold turn in Hturn.
    apply bind_Ok_inv in Hturn as (wk & _ & Hturn).
    destruct (exited wk); [by injection Hturn as <- _|].
    apply bind_Ok_inv in Hturn as ([[sh2 errcnt'] brk] & Hpass & Hturn).
    assert (Forall (fun rq => rq_objnum rq < Globals.object_count g) (requests sh2))
      as Hall2.
    { destruct Hr as [-> | ->].
      - change (passOf "g") with runDownload_pass in Hpass.
        by eapply runDownload_pass_bound.
      - change (passOf "d") with runDelete_pass in Hpass.
        by eapply runDelete_pass_bound. }
    destruct brk.
    + apply bind_Ok_inv in Hturn as (sh3 & Hexit & [= <- _]).
      apply workerExit_frame in Hexit as [-> _]. done.
    + by injection Hturn as <- _.
Qed.

Lemma runWrapper_begin_keeps g r now :
  Ascii.eqb r "p" = false ->
  Globals.object_count (runWrapper_begin g r now) = Globals.object_count g /\
  Globals.object_count_flag (runWrapper_begin g r now) = Globals.object_count_flag g.
Proof. unfold runWrapper_begin. by intros ->. Qed.

Lemma runWrapper_result bucketPhase g loop r env g' os log rqs :
  runWrapper bucketPhase g loop r env = Ok (g', os, log, rqs) ->
  exists sh,
    runWorkers bucketPhase (runWrapper_begin g r (pe_now env)) loop r env = Ok sh /\
    g' = runWrapper_pin (runWrapper_begin g r (pe_now env)) r (op_counter sh) /\
    rqs = requests sh.
Proof.
  unfold runWrapper. intros H.
  apply bind_Ok_inv in H as (sh & Hsh & H).
  apply bind_Ok_inv in H as (os0 & _ & H).
  apply bind_Ok_inv in H as ([[o ok] l] & _ & H).
  exists sh. split; [done|]. destruct ok.
  - apply bind_Ok_inv in H as (os' & _ & [= <- _ _ <-]). done.
  - by injection H as <- _ _ <-.
Qed.



